(** * Log reader of the taskrun command (pkg/cmd/taskrun/log_reader.go)

    A shallow embedding of the step resolver ([filterSteps], [getSteps],
    [getInitSteps]), of the multiplexing loop ([readStepsLogs]), of the
    non-follow entry point ([readAvailableLogs]) and of the pod-name waiter
    ([waitUntilPodNameAvailable]), followed by the properties the
    specification states about them.

    Go strings are byte strings and are modelled by [string]; a Go
    [map[string]T] is a [gmap string T] read with the zero value of [T] as
    default; a Go [error] is modelled by its message. *)

From Stdlib Require Import ZArith.
From Stdlib Require OrderedTypeEx.
From stdpp Require Import gmap strings list pretty sorting.

Local Open Scope string_scope.
Local Open Scope list_scope.

(** ** Data model *)

(** Go's [error] interface, observed through [Error()]. *)
Definition error : Type := string.

(** [corev1.ContainerState]: at most one of the three members is set. *)
Record ContainerStateWaiting := { WaitingReason : string; WaitingMessage : string }.
Record ContainerStateRunning := { StartedAt : Z }.
Record ContainerStateTerminated := { ExitCode : Z; TerminatedReason : string }.

Record ContainerState := {
  Waiting : option ContainerStateWaiting;
  Running : option ContainerStateRunning;
  Terminated : option ContainerStateTerminated
}.

(** The zero value of [corev1.ContainerState], what a Go map lookup yields
    for a missing key. *)
Definition ContainerState_zero : ContainerState :=
  {| Waiting := None; Running := None; Terminated := None |}.

(** [corev1.Container] and [corev1.ContainerStatus], restricted to the
    fields the reader looks at. *)
Record Container := { Name : string }.
Record ContainerStatus := { StatusName : string; State : ContainerState }.

(** [corev1.Pod]: [pod.Spec.*] and [pod.Status.*]. *)
Record Pod := {
  InitContainers : list Container;
  Containers : list Container;
  InitContainerStatuses : list ContainerStatus;
  ContainerStatuses : list ContainerStatus
}.

(** [type step struct]. *)
Record step := {
  name : string;
  container : string;
  state : ContainerState
}.

(** [func (s *step) hasStarted() bool]. *)
Definition hasStarted (s : step) : bool :=
  match Waiting (state s) with
  | None => true
  | Some _ => false
  end.

(** ** Strings *)

(** [strings.HasPrefix] and [strings.TrimPrefix]. *)
Definition HasPrefix (s pre : string) : bool := String.prefix pre s.

Definition TrimPrefix (s pre : string) : string :=
  if HasPrefix s pre
  then String.substring (String.length pre) (String.length s - String.length pre) s
  else s.

(** ** Step resolver *)

(** The [status] map built by the first loop of [getSteps] and of
    [getInitSteps]: a later entry of the same name overwrites an earlier
    one. *)
Definition statusMap (css : list ContainerStatus) : gmap string ContainerState :=
  fold_left (fun m cs => <[StatusName cs := State cs]> m) css ∅.

(** [status[c.Name]]: a missing key reads as the zero value. *)
Definition statusOf (m : gmap string ContainerState) (k : string) : ContainerState :=
  default ContainerState_zero (m !! k).

Definition mkStep (m : gmap string ContainerState) (c : Container) : step :=
  {| name := TrimPrefix (Name c) "step-";
     container := Name c;
     state := statusOf m (Name c) |}.

(** [func getInitSteps(pod *corev1.Pod) []*step]. *)
Definition getInitSteps (pod : Pod) : list step :=
  let status := statusMap (InitContainerStatuses pod) in
  fold_left (fun steps ic => steps ++ [mkStep status ic]) (InitContainers pod) [].

(** [func getSteps(pod *corev1.Pod) []*step]. *)
Definition getSteps (pod : Pod) : list step :=
  let status := statusMap (ContainerStatuses pod) in
  fold_left (fun steps c => steps ++ [mkStep status c]) (Containers pod) [].

(** The set [stepsToAdd] of [filterSteps], a [map[string]bool]. *)
Definition stepsToAddOf (stepsGiven : list string) : gmap string bool :=
  fold_left (fun m s => <[s := true]> m) stepsGiven ∅.

Definition wantedIn (m : gmap string bool) (k : string) : bool :=
  default false (m !! k).

(** [func filterSteps(pod *corev1.Pod, allSteps bool, stepsGiven []string) []*step]. *)
Definition filterSteps (pod : Pod) (allSteps : bool) (stepsGiven : list string)
  : list step :=
  let steps := [] in
  let stepsInPod := getSteps pod in
  let steps := if allSteps then steps ++ getInitSteps pod else steps in
  if Nat.eqb (length stepsGiven) 0 then steps ++ stepsInPod
  else
    let stepsToAdd := stepsToAddOf stepsGiven in
    fold_left
      (fun steps sp => if wantedIn stepsToAdd (name sp) then steps ++ [sp] else steps)
      stepsInPod steps.

(** ** Records and channels of the multiplexer *)

(** [stream.Log], the value a container's log source delivers; only its
    [Log] field is read. *)
Record StreamLog := { StreamText : string }.

(** [log.Log], the record sent on [logC]: fields [Task], [Step] and [Log]. *)
Record Log := { LogTask : string; LogStep : string; LogText : string }.

(** A receive-only Go channel fed by a collaborator: [None] is the nil
    channel, [Some l] delivers the values of [l] in order and is then
    closed. A source that is never closed would keep the loop of
    [readStepsLogs] waiting for ever and is outside this model. *)
Definition chan (A : Type) : Type := option (list A).

Definition chanSize {A} (c : chan A) : nat :=
  match c with
  | None => 0
  | Some l => S (length l)
  end.

(** What [container.LogReader(follow).Read()] returns:
    [(podC, perrC, err)]. *)
Record ReadResult := {
  podC0 : chan StreamLog;
  perrC0 : chan error;
  readErr : option error
}.

(** The two cases of the [select] in [readStepsLogs]. *)
Inductive Side := PodSide | ErrSide.

(** [*pods.Pod], the handle of the pod: what [p.Get()] and [p.Wait()]
    return and what its containers answer ([logRead c follow] is
    [p.Container(c).LogReader(follow).Read()], [containerStatus c] is
    [p.Container(c).Status()]). [selectOrder c] is the order in which the
    [select] finds the two sources of container [c] ready when both are
    still open (Go picks any ready case; past the end of the list the log
    source is taken). The properties below hold for every such order. *)
Record PodHandle := {
  podGet : Pod + error;
  podWait : Pod + error;
  logRead : string → bool → ReadResult;
  containerStatus : string → option error;
  selectOrder : string → list Side
}.

(** What the goroutine of [readStepsLogs] does, in program order: calls on
    the container handle, sends on the two output channels, and the
    deferred closes. Sends block until the consumer receives; the consumer
    is taken to drain both channels. *)
Inductive Event :=
| OpenLogReader (c : string) (follow : bool)
| SendLog (l : Log)
| SendErr (e : error)
| QueryStatus (c : string)
| CloseErrC
| CloseLogC.

(** The Log Records and the Error Records of a trace, as the consumer of
    [logC] and of [errC] receives them. *)
Definition logsOf (t : list Event) : list Log :=
  omap (fun e => match e with SendLog l => Some l | _ => None end) t.

Definition errsOf (t : list Event) : list error :=
  omap (fun e => match e with SendErr x => Some x | _ => None end) t.

Definition opensOf (t : list Event) : list string :=
  omap (fun e => match e with OpenLogReader c _ => Some c | _ => None end) t.

(** ** Multiplexing loop *)

(** The sentinel record sent when a step's log source is closed. *)
Definition sentinel (task : string) (s : step) : Log :=
  {| LogTask := task; LogStep := name s; LogText := "EOFLOG" |}.

(** [log.Log{Task: lr.Task, Step: step.name, Log: l.Log}]. *)
Definition lineRecord (task : string) (s : step) (l : StreamLog) : Log :=
  {| LogTask := task; LogStep := name s; LogText := StreamText l |}.

(** [fmt.Errorf("failed to get logs for %s: %s", step.name, e)]. *)
Definition streamError (s : step) (e : error) : error :=
  "failed to get logs for " +:+ name s +:+ ": " +:+ e.

(** [fmt.Errorf("error in getting logs for step %s: %s", step.name, err)]. *)
Definition openError (s : step) (err : error) : error :=
  "error in getting logs for step " +:+ name s +:+ ": " +:+ err.

(** The case the [select] takes: a nil channel is never ready. *)
Definition pick (podC : chan StreamLog) (perrC : chan error) (order : list Side) : Side :=
  match podC, perrC with
  | Some _, None => PodSide
  | None, Some _ => ErrSide
  | _, _ => hd PodSide order
  end.

(** [for podC != nil || perrC != nil { select { ... } }]: at most [fuel]
    iterations; [None] when they do not suffice. *)
Fixpoint selectLoop (fuel : nat) (task : string) (s : step)
    (podC : chan StreamLog) (perrC : chan error) (order : list Side)
  : option (list Event) :=
  match podC, perrC, fuel with
  | None, None, _ => Some []
  | _, _, O => None
  | _, _, S fuel' =>
    match pick podC perrC order, podC, perrC with
    | PodSide, Some [], _ =>
        cons (SendLog (sentinel task s))
          <$> selectLoop fuel' task s None perrC (tl order)
    | PodSide, Some (l :: podC'), _ =>
        cons (SendLog (lineRecord task s l))
          <$> selectLoop fuel' task s (Some podC') perrC (tl order)
    | ErrSide, _, Some [] =>
        selectLoop fuel' task s podC None (tl order)
    | ErrSide, _, Some (e :: perrC') =>
        cons (SendErr (streamError s e))
          <$> selectLoop fuel' task s podC (Some perrC') (tl order)
    | PodSide, None, _ | ErrSide, _, None => None
    end
  end.

(** The [select] iterations that drain the two sources of a step: one per
    value and one per close. *)
Definition drainFuel (r : ReadResult) : nat := chanSize (podC0 r) + chanSize (perrC0 r).

(** How one iteration of [for _, step := range steps] ends. *)
Inductive Flow := Continue | Return.

(** The body of the [range] loop for one step. *)
Definition readStep (task : string) (pod : PodHandle) (follow : bool) (s : step)
  : option (list Event * Flow) :=
  if negb follow && negb (hasStarted s) then Some ([], Continue)
  else
    let r := logRead pod (container s) follow in
    match readErr r with
    | Some err =>
        Some ([OpenLogReader (container s) follow; SendErr (openError s err)], Continue)
    | None =>
        seg ← selectLoop (drainFuel r) task s
                 (podC0 r) (perrC0 r) (selectOrder pod (container s));
        match containerStatus pod (container s) with
        | Some err =>
            Some (OpenLogReader (container s) follow :: seg
                    ++ [QueryStatus (container s); SendErr err], Return)
        | None =>
            Some (OpenLogReader (container s) follow :: seg
                    ++ [QueryStatus (container s)], Continue)
        end
    end.

Fixpoint stepsLoop (task : string) (pod : PodHandle) (follow : bool) (steps : list step)
  : option (list Event) :=
  match steps with
  | [] => Some []
  | s :: rest =>
      r ← readStep task pod follow s;
      match r.2 with
      | Return => Some r.1
      | Continue => app r.1 <$> stepsLoop task pod follow rest
      end
  end.

(** [func (lr *LogReader) readStepsLogs(steps, pod, follow)]: the trace of the
    goroutine it starts; the deferred closes run on every exit, [errC]
    first. *)
Definition readStepsLogs (task : string) (steps : list step) (pod : PodHandle)
    (follow : bool) : option (list Event) :=
  (fun t => t ++ [CloseErrC; CloseLogC]) <$> stepsLoop task pod follow steps.

(** ** Task runs *)

(** One entry of [v1beta1.Conditions]; [Status] is a
    [corev1.ConditionStatus], a string ("True", "False", "Unknown"). *)
Record Condition := { Status : string; Message : string }.

Definition ConditionFalse : string := "False".

(** [v1alpha1.TaskRun], restricted to what the reader looks at: [tr.Name],
    the answer of [tr.HasStarted()], [tr.Status.Conditions] and
    [tr.Status.PodName]. *)
Record TaskRun := {
  trName : string;
  HasStarted : bool;
  Conditions : list Condition;
  PodName : string
}.

(** [func hasTaskRunFailed(trConditions v1beta1.Conditions, taskName string) error]. *)
Definition hasTaskRunFailed (trConditions : list Condition) (taskName : string)
  : option error :=
  match trConditions with
  | c :: _ =>
      if String.eqb (Status c) ConditionFalse
      then Some ("task " +:+ taskName +:+ " has failed: " +:+ Message c)
      else None
  | [] => None
  end.

(** ** Clients *)

(** One event of the watch, with the time (in nanoseconds, counted from the
    moment the [select] that receives it starts) at which it becomes
    available on [watchRun.ResultChan()]. *)
Record WatchEvent := { After : Z; Object : TaskRun }.

(** [watchRun.ResultChan()]: the event that the [i]-th [select] of the
    waiter finds, if any arrives at all while that [select] waits. The
    channel is taken to stay open. *)
Definition ResultChan : Type := nat → option WatchEvent.

(** [*cli.Clients] together with the streamer: the answers of the cluster.
    [tknGet ns run] is [TaskRuns(ns).Get(run, ...)], [tknWatch ns run] is
    [TaskRuns(ns).Watch(opts)] with the field selector on [run], and
    [podsNew podName ns] is [pods.New(podName, ns, kube, streamer)]. *)
Record ClientsT := {
  tknGet : string → string → TaskRun + error;
  tknWatch : string → string → ResultChan + error;
  podsNew : string → string → PodHandle
}.

(** [*cli.Stream]: the text written so far to each writer. *)
Record CliStream := { Out : string; Err : string }.

(** [type LogReader struct]; [Streamer] is part of [Clients] here. *)
Record LogReader := {
  Task : string;
  Run : string;
  Number : Z;
  Ns : string;
  Clients : ClientsT;
  Follow : bool;
  AllSteps : bool;
  Stream : option CliStream;
  Steps : list string
}.

(** What [readLogs] hands back: [(nil, nil, err)], or the two channels
    together with the goroutine that feeds them. *)
Inductive ReadOutcome :=
| Failed (err : error)
| Started (goroutine : option (list Event)).

Definition newline : string := String (Ascii.ascii_of_nat 10) "".

(** [fmt.Fprintf(lr.Stream.Err, "%s\n", msg)]. *)
Definition writeErr (st : CliStream) (msg : string) : CliStream :=
  {| Out := Out st; Err := Err st +:+ msg +:+ newline |}.

(** ** Pod-name waiter *)

(** [time.Second] in nanoseconds, and the wrap-around of [time.Duration]
    (an [int64]). *)
Definition Second : Z := 1000000000%Z.

Definition wrap64 (z : Z) : Z := ((z + 2 ^ 63) `mod` 2 ^ 64 - 2 ^ 63)%Z.

(** The duration handed to [time.After]: [timeout * time.Second]. *)
Definition timerDuration (timeout : Z) : Z := wrap64 (timeout * Second)%Z.

(** The state of the waiter: it has returned [(run, nil)] or [(nil, err)]
    after [elapsed] nanoseconds in the loop, or it is still in its loop. *)
Inductive WaitState :=
| Returned (r : TaskRun + error) (elapsed : Z)
| Selecting (elapsed : Z).

(** The outcome of one [select]: the event case when the event is there
    before the timer of this iteration fires, the timer case otherwise
    (when both are ready at the same instant Go may take either case; the
    timer case is taken here). *)
Inductive Selected := SelEvent (ev : WatchEvent) | SelTimer.

Definition select (ev : option WatchEvent) (timer : Z) : Selected :=
  match ev with
  | Some e => if (After e <? timer)%Z then SelEvent e else SelTimer
  | None => SelTimer
  end.

(** The error of the timer case when the run has not failed. *)
Definition timeoutError (task : string) : error :=
  "task " +:+ task +:+ " create has not started yet or pod for task not yet available".

(** The [for { select { ... } }] of [waitUntilPodNameAvailable], observed
    over at most [n] iterations starting with the [i]-th. [run] is the
    variable declared before the loop; the event case declares a [run] of
    its own with [:=], which the timer case does not see. A timer is made
    by [time.After] each time the [select] is entered. *)
Fixpoint waitLoop (n : nat) (task : string) (run : TaskRun) (events : ResultChan)
    (timeout : Z) (i : nat) (first : bool) (elapsed : Z) : WaitState :=
  match n with
  | O => Selecting elapsed
  | S n' =>
    match select (events i) (timerDuration timeout) with
    | SelEvent event =>
        let run' := Object event in
        if negb (String.eqb (PodName run') "")
        then Returned (inl run') (elapsed + After event)%Z
        else waitLoop n' task run events timeout (S i) false (elapsed + After event)%Z
    | SelTimer =>
        let elapsed' := (elapsed + Z.max 0 (timerDuration timeout))%Z in
        match hasTaskRunFailed (Conditions run) task with
        | Some err => Returned (inr err) elapsed'
        | None => Returned (inr (timeoutError task)) elapsed'
        end
    end
  end.

(** [func (lr *LogReader) waitUntilPodNameAvailable(timeout time.Duration)],
    observed over at most [n] iterations of its loop. *)
Definition waitUntilPodNameAvailable (n : nat) (lr : LogReader) (timeout : Z)
  : WaitState :=
  let first := true in
  let tkn := Clients lr in
  match tknGet tkn (Ns lr) (Run lr) with
  | inr err => Returned (inr err) 0%Z
  | inl run =>
      if negb (String.eqb (PodName run) "") then Returned (inl run) 0%Z
      else
        match tknWatch tkn (Ns lr) (Run lr) with
        | inr err => Returned (inr err) 0%Z
        | inl watchRun => waitLoop n (Task lr) run watchRun timeout 0 first 0%Z
        end
  end.

(** ** Entry points *)

Section Reader.

(** [strings.TrimSpace] of Go's standard library. *)
Variable TrimSpace : string → string.

Definition podFailure (task : string) (err : error) (tr : TaskRun) : error :=
  "task " +:+ task +:+ " failed: " +:+ TrimSpace err
    +:+ ". Run tkn tr desc " +:+ trName tr +:+ " for more details.".

(** [func (lr *LogReader) readAvailableLogs(tr *v1alpha1.TaskRun)]: what it
    returns and the state of [lr.Stream] afterwards. *)
Definition readAvailableLogs (lr : LogReader) (tr : TaskRun)
  : ReadOutcome * option CliStream :=
  if negb (HasStarted tr)
  then (Failed ("task " +:+ Task lr +:+ " has not started yet"), Stream lr)
  else
    match hasTaskRunFailed (Conditions tr) (Task lr) with
    | Some err =>
        (Failed err,
         match Stream lr with
         | Some st => Some (writeErr st err)
         | None => None
         end)
    | None =>
        if String.eqb (PodName tr) ""
        then (Failed ("pod for taskrun " +:+ trName tr +:+ " not available yet"),
              Stream lr)
        else
          let p := podsNew (Clients lr) (PodName tr) (Ns lr) in
          match podGet p with
          | inr err => (Failed (podFailure (Task lr) err tr), Stream lr)
          | inl pod =>
              let steps := filterSteps pod (AllSteps lr) (Steps lr) in
              (Started (readStepsLogs (Task lr) steps p (Follow lr)), Stream lr)
          end
    end.

(** [func (lr *LogReader) readLiveLogs()], with the waiter observed over at
    most [n] iterations: [None] while the waiter is still in its loop. *)
Definition readLiveLogs (n : nat) (lr : LogReader) : option ReadOutcome :=
  match waitUntilPodNameAvailable n lr 10%Z with
  | Selecting _ => None
  | Returned (inr err) _ => Some (Failed err)
  | Returned (inl tr) _ =>
      let p := podsNew (Clients lr) (PodName tr) (Ns lr) in
      match podWait p with
      | inr err => Some (Failed (podFailure (Task lr) err tr))
      | inl pod =>
          let steps := filterSteps pod (AllSteps lr) (Steps lr) in
          Some (Started (readStepsLogs (Task lr) steps p (Follow lr)))
      end
  end.

(** [func (lr *LogReader) readLogs(tr *v1alpha1.TaskRun)]. *)
Definition readLogs (n : nat) (lr : LogReader) (tr : TaskRun)
  : option (ReadOutcome * option CliStream) :=
  if Follow lr
  then (fun o => (o, Stream lr)) <$> readLiveLogs n lr
  else Some (readAvailableLogs lr tr).

End Reader.

(** ** Reading a run *)

(** [tr.Spec.TaskRef], of which only the name is read. *)
Record TaskRef := { RefName : string }.

(** The [*v1alpha1.TaskRun] that [Read] fetches: [tr.Labels],
    [tr.Spec.TaskRef] and the part of the run described by [TaskRun]. *)
Record TaskRunObject := {
  Labels : gmap string string;
  SpecTaskRef : option TaskRef;
  Observed : TaskRun
}.

(** The assignment [lr.Task = task]. *)
Definition withTask (lr : LogReader) (task : string) : LogReader :=
  {| Task := task; Run := Run lr; Number := Number lr; Ns := Ns lr;
     Clients := Clients lr; Follow := Follow lr; AllSteps := AllSteps lr;
     Stream := Stream lr; Steps := Steps lr |}.

(** [func (lr *LogReader) formTaskName(tr *v1alpha1.TaskRun)]: the reader
    after the call. [fmt.Sprintf("Task %d", lr.Number)] writes the number in
    decimal. *)
Definition formTaskName (lr : LogReader) (tr : TaskRunObject) : LogReader :=
  if negb (String.eqb (Task lr) "") then lr
  else
    match Labels tr !! "tekton.dev/pipelineTask" with
    | Some name => withTask lr name
    | None =>
        match SpecTaskRef tr with
        | Some ref => withTask lr (RefName ref)
        | None => withTask lr ("Task " +:+ pretty (Number lr))
        end
    end.

Section Read.

(** [strings.TrimSpace], the constant [msgTRNotFoundErr] of the package, and
    the answer of [TaskRuns(ns).Get(run, ...)] to [Read] (the waiter asks
    again, through [tknGet]). *)
Variable TrimSpace : string → string.
Variable msgTRNotFoundErr : string.
Variable get : string → string → TaskRunObject + error.

(** [func (lr *LogReader) Read()]: the reader after the call and what the
    call returns, with the waiter observed over at most [n] iterations. *)
Definition Read (n : nat) (lr : LogReader)
  : LogReader * option (ReadOutcome * option CliStream) :=
  match get (Ns lr) (Run lr) with
  | inr err => (lr, Some (Failed (msgTRNotFoundErr +:+ ": " +:+ err), Stream lr))
  | inl tr =>
      let lr' := formTaskName lr tr in
      (lr', readLogs TrimSpace n lr' (Observed tr))
  end.

End Read.

(** ** Notions used in the statements *)

(** The terminal status of the step is queried and reports failure: the
    step is not skipped, its log reader opens, and [container.Status()]
    returns an error. *)
Definition aborts (pod : PodHandle) (follow : bool) (s : step) : bool :=
  if negb follow && negb (hasStarted s) then false
  else
    match readErr (logRead pod (container s) follow) with
    | Some _ => false
    | None =>
        match containerStatus pod (container s) with
        | Some _ => true
        | None => false
        end
    end.

(** The time spent in the first [n] selects when each of them receives its
    event. *)
Fixpoint waited (events : ResultChan) (i n : nat) : Z :=
  match n with
  | O => 0%Z
  | S n' =>
      (match events i with Some ev => After ev | None => 0 end
       + waited events (S i) n')%Z
  end.

(** ** Example inputs *)

(** A pod with one init container and the steps build and test: build has
    terminated, test is still waiting, and no status is recorded for the
    init container. *)
Definition terminatedState : ContainerState :=
  {| Waiting := None; Running := None;
     Terminated := Some {| ExitCode := 0; TerminatedReason := "Completed" |} |}.

Definition waitingState : ContainerState :=
  {| Waiting := Some {| WaitingReason := "PodInitializing"; WaitingMessage := "" |};
     Running := None; Terminated := None |}.

Definition examplePod : Pod :=
  {| InitContainers := [ {| Name := "step-init-git" |} ];
     Containers := [ {| Name := "step-build" |}; {| Name := "step-test" |} ];
     InitContainerStatuses := [];
     ContainerStatuses :=
       [ {| StatusName := "step-build"; State := terminatedState |};
         {| StatusName := "step-test"; State := waitingState |} ] |}.

Definition initStep : step :=
  {| name := "init-git"; container := "step-init-git"; state := ContainerState_zero |}.
Definition buildStep : step :=
  {| name := "build"; container := "step-build"; state := terminatedState |}.
Definition testStep : step :=
  {| name := "test"; container := "step-test"; state := waitingState |}.

(** Its handle: build has logged one line, the reader of test delivers an
    error and its container has failed. *)
Definition exampleHandle : PodHandle :=
  {| podGet := inl examplePod;
     podWait := inl examplePod;
     logRead := fun c _ =>
       if String.eqb c "step-build"
       then {| podC0 := Some [ {| StreamText := "ok" |} ]; perrC0 := Some [];
               readErr := None |}
       else {| podC0 := Some []; perrC0 := Some ["stream reset"]; readErr := None |};
     containerStatus := fun c =>
       if String.eqb c "step-test" then Some "container step-test has failed" else None;
     selectOrder := fun _ => [ErrSide; PodSide] |}.

(** A run fetched before it has any condition, and the same run once it
    has failed without a pod. *)
Definition pendingRun : TaskRun :=
  {| trName := "run-1"; HasStarted := false; Conditions := []; PodName := "" |}.

Definition failedRun : TaskRun :=
  {| trName := "run-1"; HasStarted := true;
     Conditions := [ {| Status := "False"; Message := "could not get task" |} ];
     PodName := "" |}.

(** The cluster answers [answer] to [Get] and delivers [events] on the
    watch. *)
Definition clientsWith (answer : TaskRun) (events : ResultChan) : ClientsT :=
  {| tknGet := fun _ _ => inl answer;
     tknWatch := fun _ _ => inl events;
     podsNew := fun _ _ => exampleHandle |}.

Definition readerWith (clients : ClientsT) : LogReader :=
  {| Task := "build-task"; Run := "run-1"; Number := 1; Ns := "ns";
     Clients := clients; Follow := true; AllSteps := false;
     Stream := None; Steps := [] |}.

(** The run fails one second after the watch was opened, and nothing else
    happens. *)
Definition lateFailure : ResultChan :=
  fun i => if Nat.eqb i 0 then Some {| After := Second; Object := failedRun |} else None.

(** The run is updated every nine seconds without ever getting a pod. *)
Definition steadyUpdates : ResultChan :=
  fun _ => Some {| After := 9 * Second; Object := pendingRun |}.

(** ** Sorting the resources of a pipeline *)

(** [v1alpha1.PipelineDeclaredResource], restricted to the two fields the
    comparison reads: the name and the type, the type being a string. *)
Record PipelineDeclaredResource := { ResourceName : string; ResourceType : string }.

(** The function that [sortResourcesByTypeAndName] hands to [sort.Slice],
    on the elements [pres[i]] and [pres[j]]; Go orders strings byte by byte,
    as [String.ltb] does. *)
Definition lessByTypeAndName (pi pj : PipelineDeclaredResource) : bool :=
  if String.ltb (ResourceType pj) (ResourceType pi) then false
  else if String.ltb (ResourceType pi) (ResourceType pj) then true
  else String.ltb (ResourceName pi) (ResourceName pj).

(** What [sort.Slice] promises of the slice it leaves behind: the same
    elements, none of them less than one that stands before it. *)
Definition sortedBy (pres sorted : list PipelineDeclaredResource) : Prop :=
  pres ≡ₚ sorted
  ∧ StronglySorted (fun a b => lessByTypeAndName b a = false) sorted.

(** The two deferred closes. *)
Definition isClose (e : Event) : bool :=
  match e with
  | CloseErrC | CloseLogC => true
  | _ => false
  end.

(** The step is passed over: the logs are not followed and the step is
    still waiting. *)
Definition skipped (follow : bool) (s : step) : bool :=
  negb follow && negb (hasStarted s).

(** A handle whose log readers cannot be opened for the container
    step-build. *)
Definition brokenHandle : PodHandle :=
  {| podGet := podGet exampleHandle;
     podWait := podWait exampleHandle;
     logRead := fun c follow =>
       if String.eqb c "step-build"
       then {| podC0 := None; perrC0 := None; readErr := Some "container not found" |}
       else logRead exampleHandle c follow;
     containerStatus := containerStatus exampleHandle;
     selectOrder := selectOrder exampleHandle |}.

(** The same handle as [exampleHandle] with another order of the selects. *)
Definition reorderedHandle : PodHandle :=
  {| podGet := podGet exampleHandle;
     podWait := podWait exampleHandle;
     logRead := logRead exampleHandle;
     containerStatus := containerStatus exampleHandle;
     selectOrder := fun _ => [PodSide; PodSide; ErrSide] |}.

(** The run once it has a pod, and a watch that delivers the run first
    unchanged and then scheduled. *)
Definition scheduledRun : TaskRun :=
  {| trName := "run-1"; HasStarted := true; Conditions := []; PodName := "run-1-pod" |}.

Definition lateSchedule : ResultChan :=
  fun i =>
    match i with
    | 0 => Some {| After := Second; Object := pendingRun |}
    | 1 => Some {| After := 2 * Second; Object := scheduledRun |}
    | _ => None
    end.

(** A fetched run with a pipeline-task label and a task reference. *)
Definition labelledObject : TaskRunObject :=
  {| Labels := {[ "tekton.dev/pipelineTask" := "compile" ]};
     SpecTaskRef := Some {| RefName := "golang-build" |};
     Observed := failedRun |}.

Definition bareObject : TaskRunObject :=
  {| Labels := ∅; SpecTaskRef := None; Observed := pendingRun |}.

(** A reader without a task name that does not follow the logs, and a
    fetched run that is scheduled and carries a pipeline-task label. *)
Definition plainReader (number : Z) : LogReader :=
  {| Task := ""; Run := "run-1"; Number := number; Ns := "ns";
     Clients := clientsWith scheduledRun lateSchedule; Follow := false;
     AllSteps := false; Stream := None; Steps := [] |}.

Definition scheduledObject : TaskRunObject :=
  {| Labels := {[ "tekton.dev/pipelineTask" := "compile" ]};
     SpecTaskRef := Some {| RefName := "golang-build" |};
     Observed := scheduledRun |}.

(** * Properties *)

Local Open Scope nat_scope.

(** ** Resolver lemmas *)

Lemma fold_left_snoc_map {A B} (f : A → B) (l : list A) (acc : list B) :
  fold_left (fun steps a => steps ++ [f a]) l acc = acc ++ map f l.
Proof.
  revert acc; induction l as [|a l IH]; intros acc; simpl.
  - by rewrite app_nil_r.
  - by rewrite IH, <- app_assoc.
Qed.

Lemma fold_left_snoc_filter {A} (p : A → bool) (l acc : list A) :
  fold_left (fun steps a => if p a then steps ++ [a] else steps) l acc
  = acc ++ List.filter p l.
Proof.
  revert acc; induction l as [|a l IH]; intros acc; simpl.
  - by rewrite app_nil_r.
  - rewrite IH. destruct (p a); [by rewrite <- app_assoc | done].
Qed.

Lemma getSteps_map pod :
  getSteps pod = map (mkStep (statusMap (ContainerStatuses pod))) (Containers pod).
Proof. unfold getSteps. by rewrite fold_left_snoc_map. Qed.

Lemma getInitSteps_map pod :
  getInitSteps pod
  = map (mkStep (statusMap (InitContainerStatuses pod))) (InitContainers pod).
Proof. unfold getInitSteps. by rewrite fold_left_snoc_map. Qed.

Example TrimPrefix_step : TrimPrefix "step-build" "step-" = "build".
Proof. reflexivity. Qed.
Example TrimPrefix_none : TrimPrefix "nop" "step-" = "nop".
Proof. reflexivity. Qed.
Example TrimPrefix_short : TrimPrefix "ste" "step-" = "ste".
Proof. reflexivity. Qed.

(** The [stepsToAdd] map answers membership in [stepsGiven]. *)
Lemma stepsToAdd_fold (l : list string) (m : gmap string bool) (k : string) :
  wantedIn (fold_left (fun m s => <[s := true]> m) l m) k
  = bool_decide (k ∈ l) || wantedIn m k.
Proof.
  revert m; induction l as [|a l IH]; intros m; simpl; [done|].
  rewrite IH. unfold wantedIn. rewrite lookup_insert.
  destruct (decide (a = k)) as [->|Hne]; simpl.
  - rewrite (bool_decide_eq_true_2 (k ∈ k :: l)) by apply list_elem_of_here.
    by rewrite orb_true_r.
  - destruct (decide (k ∈ l)) as [Hin|Hnin].
    + rewrite !bool_decide_eq_true_2; [done|by apply list_elem_of_further|done].
    + rewrite !bool_decide_eq_false_2; [done| |done].
      intros [?|?]%elem_of_cons; congruence.
Qed.

Lemma wantedIn_stepsToAddOf (l : list string) (k : string) :
  wantedIn (stepsToAddOf l) k = bool_decide (k ∈ l).
Proof.
  unfold stepsToAddOf. rewrite stepsToAdd_fold.
  unfold wantedIn. rewrite lookup_empty. simpl. by rewrite orb_false_r.
Qed.

(** The [status] map has no entry for a name that no status carries. *)
Lemma statusMap_fold_None (css : list ContainerStatus)
    (m : gmap string ContainerState) (k : string) :
  k ∉ map StatusName css → m !! k = None →
  fold_left (fun m cs => <[StatusName cs := State cs]> m) css m !! k = None.
Proof.
  revert m; induction css as [|cs css IH]; intros m Hk Hm; simpl in *; [done|].
  apply not_elem_of_cons in Hk as [Hne Hk].
  apply IH; [done|]. by rewrite lookup_insert_ne.
Qed.

Lemma statusOf_missing (css : list ContainerStatus) (k : string) :
  k ∉ map StatusName css → statusOf (statusMap css) k = ContainerState_zero.
Proof.
  intros Hk. unfold statusOf, statusMap.
  by rewrite statusMap_fold_None.
Qed.

(** The general shape of the result of [filterSteps]. *)
Lemma filterSteps_shape pod allSteps (stepsGiven : list string) :
  filterSteps pod allSteps stepsGiven
  = (if allSteps then getInitSteps pod else [])
    ++ (match stepsGiven with
        | [] => getSteps pod
        | _ => List.filter (fun s => bool_decide (name s ∈ stepsGiven)) (getSteps pod)
        end).
Proof.
  unfold filterSteps. destruct stepsGiven as [|w ws]; simpl.
  - by destruct allSteps.
  - rewrite fold_left_snoc_filter.
    rewrite (List.filter_ext _ (fun s => bool_decide (name s ∈ w :: ws)))
      by (intros s; apply wantedIn_stepsToAddOf).
    by destruct allSteps.
Qed.

Lemma mkStep_name m c : name (mkStep m c) = TrimPrefix (container (mkStep m c)) "step-".
Proof. reflexivity. Qed.

(** [TrimPrefix] removes the prefix when it is there. *)
Lemma substring_all (s : string) : String.substring 0 (String.length s) s = s.
Proof. induction s as [|a s IH]; simpl; [done|by rewrite IH]. Qed.

Lemma TrimPrefix_app (pre s : string) : TrimPrefix (pre +:+ s) pre = s.
Proof.
  unfold TrimPrefix, HasPrefix.
  assert (Hp : String.prefix pre (pre +:+ s) = true).
  { induction pre as [|a pre IH]; simpl; [by destruct s|].
    destruct (Ascii.ascii_dec a a); [done|congruence]. }
  rewrite Hp. clear Hp.
  induction pre as [|a pre IH]; simpl.
  - rewrite Nat.sub_0_r. apply substring_all.
  - apply IH.
Qed.

(** C3: with an empty [wanted] list, [filterSteps] returns one step per
    declared container of the pod, in declaration order, after one step per
    init container exactly when [allSteps] is set; the name of every step
    returned is its container name without the prefix "step-". *)
Theorem filterSteps_empty_wanted pod allSteps :
  filterSteps pod allSteps []
  = (if allSteps
     then map (mkStep (statusMap (InitContainerStatuses pod))) (InitContainers pod)
     else [])
    ++ map (mkStep (statusMap (ContainerStatuses pod))) (Containers pod)
  ∧ map container (filterSteps pod allSteps [])
    = (if allSteps then map Name (InitContainers pod) else [])
      ++ map Name (Containers pod)
  ∧ (∀ s, s ∈ filterSteps pod allSteps [] →
       name s = TrimPrefix (container s) "step-")
  ∧ (∀ x, TrimPrefix ("step-" +:+ x) "step-" = x).
Proof.
  assert (Heq : filterSteps pod allSteps []
    = (if allSteps
       then map (mkStep (statusMap (InitContainerStatuses pod))) (InitContainers pod)
       else [])
      ++ map (mkStep (statusMap (ContainerStatuses pod))) (Containers pod)).
  { rewrite filterSteps_shape, getSteps_map, getInitSteps_map. done. }
  split; [exact Heq|]. rewrite Heq. split; [|split].
  - rewrite map_app. f_equal.
    + destruct allSteps; [|done]. by rewrite map_map.
    + by rewrite map_map.
  - intros s Hs. apply elem_of_app in Hs as [Hs|Hs].
    + destruct allSteps; [|by apply elem_of_nil in Hs].
      apply list_elem_of_fmap in Hs as (c & -> & _). apply mkStep_name.
    + apply list_elem_of_fmap in Hs as (c & -> & _). apply mkStep_name.
  - intros x. apply TrimPrefix_app.
Qed.

(** C4: with a non-empty [wanted] list, [filterSteps] returns, after the
    init steps it may have put first, the steps of the pod whose name is in
    [wanted], in the order of the pod; reordering [wanted] changes nothing,
    and neither does a name in [wanted] that no step has. *)
Theorem filterSteps_wanted pod allSteps (wanted : list string) :
  wanted ≠ [] →
  filterSteps pod allSteps wanted
  = (if allSteps then getInitSteps pod else [])
    ++ List.filter (fun s => bool_decide (name s ∈ wanted)) (getSteps pod)
  ∧ (∀ wanted', wanted ≡ₚ wanted' →
       filterSteps pod allSteps wanted' = filterSteps pod allSteps wanted)
  ∧ (∀ w, (∀ s, s ∈ getSteps pod → name s ≠ w) →
       filterSteps pod allSteps (w :: wanted) = filterSteps pod allSteps wanted).
Proof.
  intros Hne.
  assert (Heq : ∀ ws : list string, ws ≠ [] →
    filterSteps pod allSteps ws
    = (if allSteps then getInitSteps pod else [])
      ++ List.filter (fun s => bool_decide (name s ∈ ws)) (getSteps pod)).
  { intros ws Hws. rewrite filterSteps_shape. by destruct ws. }
  split; [by apply Heq|split].
  - intros wanted' Hp.
    assert (wanted' ≠ []) as Hne'.
    { intros ->. by apply Permutation_nil_r in Hp. }
    rewrite !Heq by done. f_equal.
    apply List.filter_ext. intros s.
    apply bool_decide_ext. by rewrite Hp.
  - intros w Hw. rewrite !Heq by done. f_equal.
    apply filter_ext_in. intros s Hs.
    apply bool_decide_ext. rewrite elem_of_cons.
    apply list_elem_of_In in Hs. specialize (Hw s Hs).
    split; [intros [Heqw|Hin]; [congruence|exact Hin]|intros Hin; by right].
Qed.

Lemma filterSteps_wanted_witness :
  filterSteps examplePod true ["test"; "deploy"]
  = getInitSteps examplePod
    ++ List.filter (fun s => bool_decide (name s ∈ ["test"; "deploy"]))
         (getSteps examplePod)
  ∧ (∀ wanted', ["test"; "deploy"] ≡ₚ wanted' →
       filterSteps examplePod true wanted'
       = filterSteps examplePod true ["test"; "deploy"])
  ∧ (∀ w, (∀ s, s ∈ getSteps examplePod → name s ≠ w) →
       filterSteps examplePod true (w :: ["test"; "deploy"])
       = filterSteps examplePod true ["test"; "deploy"]).
Proof.
  apply (filterSteps_wanted examplePod true ["test"; "deploy"]).
  discriminate.
Defined.

(** C5: with [allSteps] set and a non-empty [wanted] list, all init steps
    come first whatever [wanted] holds; a pod with the init step init-git
    and the steps build and test resolves, for wanted = [test], to
    init-git followed by test. *)
Theorem filterSteps_allSteps_keeps_init pod (wanted : list string) :
  wanted ≠ [] →
  filterSteps pod true wanted = getInitSteps pod ++ filterSteps pod false wanted
  ∧ (∀ s, s ∈ getInitSteps pod → s ∈ filterSteps pod true wanted)
  ∧ (map name (getInitSteps pod) = ["init-git"] →
     map name (getSteps pod) = ["build"; "test"] →
     wanted = ["test"] →
     map name (filterSteps pod true wanted) = ["init-git"; "test"]).
Proof.
  intros Hne.
  assert (Heq : filterSteps pod true wanted
                = getInitSteps pod ++ filterSteps pod false wanted).
  { by rewrite !filterSteps_shape. }
  split; [exact Heq|split].
  - intros s Hs. rewrite Heq. apply elem_of_app. by left.
  - intros Hi Hs ->. rewrite Heq, map_app, Hi, filterSteps_shape. simpl.
    destruct (getSteps pod) as [|s1 [|s2 [|s3 l]]]; simpl in Hs; try discriminate.
    injection Hs as H1 H2. simpl. rewrite H1, H2.
    rewrite (bool_decide_eq_false_2 ("build" ∈ ["test"]))
      by (intros Hin; apply list_elem_of_singleton in Hin; discriminate).
    rewrite (bool_decide_eq_true_2 ("test" ∈ ["test"]))
      by (by apply list_elem_of_singleton).
    simpl. by rewrite H2.
Qed.

Lemma filterSteps_allSteps_keeps_init_witness :
  filterSteps examplePod true ["test"]
  = getInitSteps examplePod ++ filterSteps examplePod false ["test"]
  ∧ map name (filterSteps examplePod true ["test"]) = ["init-git"; "test"].
Proof.
  destruct (filterSteps_allSteps_keeps_init examplePod ["test"]) as (H1 & _ & H2).
  - discriminate.
  - split; [exact H1|]. apply H2; reflexivity.
Defined.

(** ** The select loop of one step *)

(** One iteration of the loop, for every state of the two sources and
    every next choice of the [select]; [tac] closes each case from the
    equation [Ht] of the remaining iterations. *)
Ltac select_cases podC perrC order Ht tac :=
  destruct podC as [[|?l ?ls]|], perrC as [[|?e ?es]|], order as [|[|] order];
  simpl in Ht;
  try discriminate Ht;
  try (injection Ht as <-; reflexivity);
  try (apply fmap_Some in Ht as (?t & Ht & ->));
  tac Ht.

Section SelectLoop.

Context (task : string) (s : step).

(** The loop ends as soon as every value and both closes were received. *)
Lemma selectLoop_total fuel podC perrC order :
  chanSize podC + chanSize perrC ≤ fuel →
  is_Some (selectLoop fuel task s podC perrC order).
Proof.
  revert podC perrC order.
  induction fuel as [|fuel IH]; intros podC perrC order Hsz.
  - destruct podC, perrC; simpl in *; try lia. by eexists.
  - destruct podC as [[|l ls]|], perrC as [[|e es]|], order as [|[|] order];
      simpl in *; try (by eexists);
      try (apply fmap_is_Some); apply IH; simpl; lia.
Qed.

(** The Log Records of the loop: one per line, in order, then the sentinel;
    none at all when the log source is nil. *)
Lemma selectLoop_logs fuel podC perrC order t :
  selectLoop fuel task s podC perrC order = Some t →
  logsOf t = match podC with
             | Some ls => map (lineRecord task s) ls ++ [sentinel task s]
             | None => []
             end.
Proof.
  revert podC perrC order t.
  induction fuel as [|fuel IH]; intros podC perrC order t Ht.
  - destruct podC, perrC; simpl in Ht; try discriminate.
    by injection Ht as <-.
  - select_cases podC perrC order Ht
      ltac:(fun H => apply IH in H; simpl in *; by rewrite ?H).
Qed.

(** The Error Records of the loop: one per error of the error source. *)
Lemma selectLoop_errs fuel podC perrC order t :
  selectLoop fuel task s podC perrC order = Some t →
  errsOf t = match perrC with
             | Some es => map (streamError s) es
             | None => []
             end.
Proof.
  revert podC perrC order t.
  induction fuel as [|fuel IH]; intros podC perrC order t Ht.
  - destruct podC, perrC; simpl in Ht; try discriminate.
    by injection Ht as <-.
  - select_cases podC perrC order Ht
      ltac:(fun H => apply IH in H; simpl in *; by rewrite ?H).
Qed.

(** The loop calls nothing on the container handle. *)
Lemma selectLoop_opens fuel podC perrC order t :
  selectLoop fuel task s podC perrC order = Some t → opensOf t = [].
Proof.
  revert podC perrC order t.
  induction fuel as [|fuel IH]; intros podC perrC order t Ht.
  - destruct podC, perrC; simpl in Ht; try discriminate.
    by injection Ht as <-.
  - select_cases podC perrC order Ht
      ltac:(fun H => apply IH in H; simpl in *; by rewrite ?H).
Qed.

(** No record made from a line other than "EOFLOG" looks like the
    sentinel. *)
Lemma lines_hold_no_sentinel (ls : list StreamLog) :
  Forall (fun x => StreamText x ≠ "EOFLOG") ls →
  List.filter (fun r => String.eqb (LogText r) "EOFLOG") (map (lineRecord task s) ls)
  = [].
Proof.
  induction 1 as [|x ls Hx _ IH]; simpl; [done|].
  apply String.eqb_neq in Hx. by rewrite Hx.
Qed.

End SelectLoop.

(** ** One step *)

Lemma readStep_skipped task pod s :
  hasStarted s = false → readStep task pod false s = Some ([], Continue).
Proof. intros Hs. unfold readStep. by rewrite Hs. Qed.

Lemma readStep_open_failed task pod follow s err :
  negb follow && negb (hasStarted s) = false →
  readErr (logRead pod (container s) follow) = Some err →
  readStep task pod follow s
  = Some ([OpenLogReader (container s) follow; SendErr (openError s err)], Continue).
Proof. intros Hs Hr. unfold readStep. by rewrite Hs, Hr. Qed.

(** A step that is read: the reader is opened, the two sources are drained,
    the status is queried, and a failure is sent and ends the goroutine. *)
Lemma readStep_read task pod follow s :
  negb follow && negb (hasStarted s) = false →
  readErr (logRead pod (container s) follow) = None →
  ∃ seg,
    selectLoop (drainFuel (logRead pod (container s) follow)) task s
      (podC0 (logRead pod (container s) follow))
      (perrC0 (logRead pod (container s) follow))
      (selectOrder pod (container s)) = Some seg
    ∧ readStep task pod follow s
      = Some (OpenLogReader (container s) follow :: seg
                ++ QueryStatus (container s)
                   :: match containerStatus pod (container s) with
                      | Some err => [SendErr err]
                      | None => []
                      end,
              match containerStatus pod (container s) with
              | Some _ => Return
              | None => Continue
              end).
Proof.
  intros Hs Hr.
  destruct (selectLoop_total task s (drainFuel (logRead pod (container s) follow))
              (podC0 (logRead pod (container s) follow))
              (perrC0 (logRead pod (container s) follow))
              (selectOrder pod (container s))) as [seg Hseg]; [done|].
  exists seg. split; [exact Hseg|].
  unfold readStep. rewrite Hs, Hr.
  rewrite Hseg. simpl.
  by destruct (containerStatus pod (container s)).
Qed.

Lemma readStep_total task pod follow s :
  ∃ t, readStep task pod follow s
       = Some (t, if aborts pod follow s then Return else Continue).
Proof.
  unfold aborts.
  destruct (negb follow && negb (hasStarted s)) eqn:Hs.
  - exists []. unfold readStep. by rewrite Hs.
  - destruct (readErr (logRead pod (container s) follow)) as [err|] eqn:Hr.
    + eexists. by apply readStep_open_failed.
    + destruct (readStep_read task pod follow s Hs Hr) as (seg & _ & ->).
      destruct (containerStatus pod (container s)); by eexists.
Qed.

(** ** The loop over the steps *)

Lemma stepsLoop_total task pod follow steps :
  is_Some (stepsLoop task pod follow steps).
Proof.
  induction steps as [|s rest IH]; simpl; [by eexists|].
  destruct (readStep_total task pod follow s) as [t ->]. simpl.
  destruct (aborts pod follow s); [by eexists|].
  by apply fmap_is_Some.
Qed.

(** Steps that do not abort the loop are followed by the next ones. *)
Lemma stepsLoop_app task pod follow pre post :
  Forall (fun p => aborts pod follow p = false) pre →
  stepsLoop task pod follow (pre ++ post)
  = (tp ← stepsLoop task pod follow pre;
     app tp <$> stepsLoop task pod follow post).
Proof.
  induction 1 as [|p pre Hp _ IH]; simpl.
  - by destruct (stepsLoop task pod follow post).
  - destruct (readStep_total task pod follow p) as [t ->]. simpl.
    rewrite Hp, IH.
    destruct (stepsLoop task pod follow pre) as [tp|]; simpl; [|done].
    destruct (stepsLoop task pod follow post) as [tq|]; simpl; [|done].
    by rewrite app_assoc.
Qed.

Example filterSteps_examplePod :
  filterSteps examplePod true [] = [initStep; buildStep; testStep]
  ∧ filterSteps examplePod false ["test"; "deploy"] = [testStep].
Proof. split; vm_compute; reflexivity. Qed.

Example readStepsLogs_example_follow :
  readStepsLogs "t" [buildStep; testStep; buildStep] exampleHandle true
  = Some [ OpenLogReader "step-build" true;
           SendLog {| LogTask := "t"; LogStep := "build"; LogText := "ok" |};
           SendLog {| LogTask := "t"; LogStep := "build"; LogText := "EOFLOG" |};
           QueryStatus "step-build";
           OpenLogReader "step-test" true;
           SendErr "failed to get logs for test: stream reset";
           SendLog {| LogTask := "t"; LogStep := "test"; LogText := "EOFLOG" |};
           QueryStatus "step-test";
           SendErr "container step-test has failed";
           CloseErrC; CloseLogC ].
Proof. vm_compute. reflexivity. Qed.

(** The scenario of the specification: build has logged "ok", test is still
    waiting, the logs are not followed. *)
Example readStepsLogs_example_available :
  readStepsLogs "t" (filterSteps examplePod false []) exampleHandle false
  = Some [ OpenLogReader "step-build" false;
           SendLog {| LogTask := "t"; LogStep := "build"; LogText := "ok" |};
           SendLog {| LogTask := "t"; LogStep := "build"; LogText := "EOFLOG" |};
           QueryStatus "step-build";
           CloseErrC; CloseLogC ].
Proof. vm_compute. reflexivity. Qed.

(** ** The multiplexing loop *)

(** C1: when the steps before [s] let the loop go on, [s] is read and its
    status query reports [err], the goroutine sends [err] once on [errC]
    right after the query, does nothing for the steps after [s], and its
    last two actions close [errC] and [logC]. *)
Theorem status_failure_aborts task pod follow pre s post err :
  Forall (fun p => aborts pod follow p = false) pre →
  negb follow && negb (hasStarted s) = false →
  readErr (logRead pod (container s) follow) = None →
  containerStatus pod (container s) = Some err →
  ∃ tpre seg,
    stepsLoop task pod follow pre = Some tpre
    ∧ selectLoop (drainFuel (logRead pod (container s) follow)) task s
        (podC0 (logRead pod (container s) follow))
        (perrC0 (logRead pod (container s) follow))
        (selectOrder pod (container s)) = Some seg
    ∧ readStepsLogs task (pre ++ s :: post) pod follow
      = Some (tpre ++ OpenLogReader (container s) follow :: seg
                ++ [QueryStatus (container s); SendErr err; CloseErrC; CloseLogC])
    ∧ readStepsLogs task (pre ++ s :: post) pod follow
      = readStepsLogs task (pre ++ [s]) pod follow.
Proof.
  intros Hpre Hs Hr Hst.
  destruct (stepsLoop_total task pod follow pre) as [tpre Htpre].
  destruct (readStep_read task pod follow s Hs Hr) as (seg & Hseg & Hstep).
  rewrite Hst in Hstep.
  assert (Hany : ∀ post', readStepsLogs task (pre ++ s :: post') pod follow
    = Some (tpre ++ OpenLogReader (container s) follow :: seg
              ++ [QueryStatus (container s); SendErr err; CloseErrC; CloseLogC])).
  { intros post'. unfold readStepsLogs.
    rewrite stepsLoop_app by done. rewrite Htpre. simpl.
    rewrite Hstep. simpl. f_equal.
    rewrite <- app_assoc. simpl. by rewrite <- app_assoc. }
  exists tpre, seg. repeat split; [done..| |].
  - apply Hany.
  - by rewrite !Hany.
Qed.

Lemma status_failure_aborts_witness :
  ∃ tpre seg,
    stepsLoop "t" exampleHandle true [buildStep] = Some tpre
    ∧ selectLoop (drainFuel (logRead exampleHandle (container testStep) true)) "t"
        testStep
        (podC0 (logRead exampleHandle (container testStep) true))
        (perrC0 (logRead exampleHandle (container testStep) true))
        (selectOrder exampleHandle (container testStep)) = Some seg
    ∧ readStepsLogs "t" ([buildStep] ++ testStep :: [buildStep]) exampleHandle true
      = Some (tpre ++ OpenLogReader (container testStep) true :: seg
                ++ [QueryStatus (container testStep);
                    SendErr "container step-test has failed"; CloseErrC; CloseLogC])
    ∧ readStepsLogs "t" ([buildStep] ++ testStep :: [buildStep]) exampleHandle true
      = readStepsLogs "t" ([buildStep] ++ [testStep]) exampleHandle true.
Proof.
  apply (status_failure_aborts "t" exampleHandle true [buildStep] testStep
           [buildStep] "container step-test has failed").
  - repeat constructor.
  - reflexivity.
  - reflexivity.
  - reflexivity.
Defined.

(** C2: when the steps before [s] let the loop go on and the log source of
    [s] opens and delivers at least one line, the Log Records sent for [s]
    are one record per line followed by one sentinel record carrying the
    name of [s], and everything done for the later steps comes after
    them. *)
Theorem sentinel_ends_step_logs task pod follow pre s post l ls :
  Forall (fun p => aborts pod follow p = false) pre →
  negb follow && negb (hasStarted s) = false →
  readErr (logRead pod (container s) follow) = None →
  podC0 (logRead pod (container s) follow) = Some (l :: ls) →
  ∃ tpre seg rest,
    stepsLoop task pod follow pre = Some tpre
    ∧ stepsLoop task pod follow (pre ++ s :: post)
      = Some (tpre ++ OpenLogReader (container s) follow :: seg
                ++ QueryStatus (container s) :: rest)
    ∧ logsOf seg = map (lineRecord task s) (l :: ls)
                   ++ [ {| LogTask := task; LogStep := name s; LogText := "EOFLOG" |} ]
    ∧ (Forall (fun x => StreamText x ≠ "EOFLOG") (l :: ls) →
       List.filter (fun r => String.eqb (LogText r) "EOFLOG") (logsOf seg)
       = [ {| LogTask := task; LogStep := name s; LogText := "EOFLOG" |} ])
    ∧ match containerStatus pod (container s) with
      | Some err => rest = [SendErr err]
      | None => stepsLoop task pod follow post = Some rest
      end.
Proof.
  intros Hpre Hs Hr Hpod.
  destruct (stepsLoop_total task pod follow pre) as [tpre Htpre].
  destruct (stepsLoop_total task pod follow post) as [tpost Htpost].
  destruct (readStep_read task pod follow s Hs Hr) as (seg & Hseg & Hstep).
  apply selectLoop_logs in Hseg. rewrite Hpod in Hseg.
  assert (Hone : Forall (fun x => StreamText x ≠ "EOFLOG") (l :: ls) →
    List.filter (fun r => String.eqb (LogText r) "EOFLOG") (logsOf seg)
    = [sentinel task s]).
  { intros Hlines. rewrite Hseg, List.filter_app.
    by rewrite (lines_hold_no_sentinel task s _ Hlines). }
  exists tpre, seg.
  destruct (containerStatus pod (container s)) as [err|] eqn:Hst.
  - exists [SendErr err]. repeat split; [done| |done|done].
    rewrite stepsLoop_app by done. rewrite Htpre. simpl.
    rewrite Hstep. simpl. done.
  - exists tpost. repeat split; [done| |done|done|done].
    rewrite stepsLoop_app by done. rewrite Htpre. simpl.
    rewrite Hstep. simpl. rewrite Htpost. simpl.
    do 3 f_equal. by rewrite <- app_assoc.
Qed.

Lemma sentinel_ends_step_logs_witness :
  ∃ tpre seg rest,
    stepsLoop "t" exampleHandle true [] = Some tpre
    ∧ stepsLoop "t" exampleHandle true ([] ++ buildStep :: [testStep])
      = Some (tpre ++ OpenLogReader (container buildStep) true :: seg
                ++ QueryStatus (container buildStep) :: rest)
    ∧ logsOf seg = map (lineRecord "t" buildStep) ({| StreamText := "ok" |} :: [])
                   ++ [ {| LogTask := "t"; LogStep := name buildStep;
                           LogText := "EOFLOG" |} ]
    ∧ (Forall (fun x => StreamText x ≠ "EOFLOG") ({| StreamText := "ok" |} :: []) →
       List.filter (fun r => String.eqb (LogText r) "EOFLOG") (logsOf seg)
       = [ {| LogTask := "t"; LogStep := name buildStep; LogText := "EOFLOG" |} ])
    ∧ match containerStatus exampleHandle (container buildStep) with
      | Some err => rest = [SendErr err]
      | None => stepsLoop "t" exampleHandle true [testStep] = Some rest
      end.
Proof.
  apply (sentinel_ends_step_logs "t" exampleHandle true [] buildStep [testStep]
           {| StreamText := "ok" |} []).
  - constructor.
  - reflexivity.
  - reflexivity.
  - reflexivity.
Defined.

(** C8: when the logs are not followed, a step that is still waiting is
    passed over: no log reader is opened for it, nothing is sent for it, and
    the loop goes on with the next step as if the step were not in the
    list. *)
Theorem waiting_step_skipped task pod pre s post :
  hasStarted s = false →
  readStep task pod false s = Some ([], Continue)
  ∧ stepsLoop task pod false (pre ++ s :: post)
    = stepsLoop task pod false (pre ++ post)
  ∧ readStepsLogs task (pre ++ s :: post) pod false
    = readStepsLogs task (pre ++ post) pod false.
Proof.
  intros Hs.
  assert (Hloop : stepsLoop task pod false (pre ++ s :: post)
                  = stepsLoop task pod false (pre ++ post)).
  { induction pre as [|p pre IH]; simpl.
    - rewrite readStep_skipped by done. simpl.
      by destruct (stepsLoop task pod false post).
    - by rewrite IH. }
  split; [by apply readStep_skipped|split; [exact Hloop|]].
  unfold readStepsLogs. by rewrite Hloop.
Qed.

Lemma waiting_step_skipped_witness :
  readStep "t" exampleHandle false testStep = Some ([], Continue)
  ∧ stepsLoop "t" exampleHandle false ([buildStep] ++ testStep :: [buildStep])
    = stepsLoop "t" exampleHandle false ([buildStep] ++ [buildStep])
  ∧ readStepsLogs "t" ([buildStep] ++ testStep :: [buildStep]) exampleHandle false
    = readStepsLogs "t" ([buildStep] ++ [buildStep]) exampleHandle false.
Proof.
  apply (waiting_step_skipped "t" exampleHandle [buildStep] testStep [buildStep]).
  reflexivity.
Defined.

(** ** Containers without a status *)

(** C9: a container of the pod spec (an init container when [init] is set)
    whose name no entry of the matching status list carries yields a step
    with the zero container state: its [Waiting] member is nil, [hasStarted]
    answers true, and when the logs are not followed the step is read, its
    log reader being opened, rather than passed over. *)
Theorem missing_status_step_is_read pod (init : bool) (i : nat) (c : Container) :
  (if init then InitContainers pod else Containers pod) !! i = Some c →
  Name c ∉ map StatusName
             (if init then InitContainerStatuses pod else ContainerStatuses pod) →
  ∃ s,
    (if init then getInitSteps pod else getSteps pod) !! i = Some s
    ∧ container s = Name c
    ∧ state s = ContainerState_zero
    ∧ Waiting (state s) = None
    ∧ hasStarted s = true
    ∧ ∀ task ph, ∃ t fl,
        readStep task ph false s = Some (OpenLogReader (Name c) false :: t, fl).
Proof.
  intros Hc Hmiss.
  set (m := statusMap (if init then InitContainerStatuses pod
                       else ContainerStatuses pod)).
  assert (Hstate : state (mkStep m c) = ContainerState_zero).
  { simpl. by apply statusOf_missing. }
  exists (mkStep m c). split; [|split; [done|split; [done|]]].
  - destruct init; [rewrite getInitSteps_map|rewrite getSteps_map];
      change (map ?f ?l) with (f <$> l);
      rewrite list_lookup_fmap, Hc; reflexivity.
  - assert (Hstarted : hasStarted (mkStep m c) = true).
    { unfold hasStarted. by rewrite Hstate. }
    split; [by rewrite Hstate|split; [done|]].
    intros task ph.
    destruct (readErr (logRead ph (container (mkStep m c)) false)) as [err|] eqn:Hr.
    + do 2 eexists. apply readStep_open_failed; [by rewrite Hstarted|done].
    + destruct (readStep_read task ph false (mkStep m c)) as (seg & _ & ->);
        [by rewrite Hstarted|done|].
      by do 2 eexists.
Qed.

Lemma missing_status_step_is_read_witness :
  ∃ s,
    getInitSteps examplePod !! 0 = Some s
    ∧ container s = "step-init-git"
    ∧ state s = ContainerState_zero
    ∧ Waiting (state s) = None
    ∧ hasStarted s = true
    ∧ ∀ task ph, ∃ t fl,
        readStep task ph false s = Some (OpenLogReader "step-init-git" false :: t, fl).
Proof.
  apply (missing_status_step_is_read examplePod true 0 {| Name := "step-init-git" |}).
  - reflexivity.
  - simpl. apply not_elem_of_nil.
Defined.

(** ** The checks of readAvailableLogs *)

(** C7: [readAvailableLogs] returns without starting the goroutine, first
    when the run has not started, with the "has not started yet" error;
    next, when the first condition of the run is False, with the failure
    error, which it has also written to the stream of [lr] when there is
    one, whatever the pod name is; and only then, when the pod name is
    empty, with the "not available yet" error. *)
Theorem readAvailableLogs_precedence (TrimSpace : string → string) lr tr :
  (HasStarted tr = false →
     readAvailableLogs TrimSpace lr tr
     = (Failed ("task " +:+ Task lr +:+ " has not started yet"), Stream lr))
  ∧ (HasStarted tr = true →
     ∀ c cs, Conditions tr = c :: cs → Status c = "False" →
       readAvailableLogs TrimSpace lr tr
       = (Failed ("task " +:+ Task lr +:+ " has failed: " +:+ Message c),
          (fun st => {| Out := Out st;
                        Err := Err st +:+
                               ("task " +:+ Task lr +:+ " has failed: " +:+ Message c)
                               +:+ newline |})
            <$> Stream lr))
  ∧ (HasStarted tr = true →
     hasTaskRunFailed (Conditions tr) (Task lr) = None →
     PodName tr = "" →
       readAvailableLogs TrimSpace lr tr
       = (Failed ("pod for taskrun " +:+ trName tr +:+ " not available yet"),
          Stream lr)).
Proof.
  unfold readAvailableLogs. repeat split.
  - by intros ->.
  - intros -> c cs -> Hc. simpl. rewrite Hc. simpl. by destruct (Stream lr).
  - by intros -> -> ->.
Qed.

Example readAvailableLogs_failed_run :
  readAvailableLogs id
    {| Task := "build-task"; Run := "run-1"; Number := 1; Ns := "ns";
       Clients := clientsWith failedRun lateFailure; Follow := false;
       AllSteps := false; Stream := Some {| Out := ""; Err := "" |}; Steps := [] |}
    failedRun
  = (Failed "task build-task has failed: could not get task",
     Some {| Out := "";
             Err := "task build-task has failed: could not get task" +:+ newline |}).
Proof. reflexivity. Qed.

(** ** The waiter *)

Lemma waitLoop_events task run events timeout :
  (∀ i, ∃ ev, events i = Some ev
              ∧ (After ev < timerDuration timeout)%Z
              ∧ PodName (Object ev) = "") →
  ∀ n i first elapsed,
    waitLoop n task run events timeout i first elapsed
    = Selecting (elapsed + waited events i n)%Z.
Proof.
  intros Hev n. induction n as [|n IH]; intros i first elapsed; simpl.
  - by rewrite Z.add_0_r.
  - destruct (Hev i) as (ev & -> & Hlt & Hpod). simpl.
    apply Z.ltb_lt in Hlt. rewrite Hlt, Hpod. simpl.
    rewrite IH. by rewrite Z.add_assoc.
Qed.

Lemma waited_lower_bound events :
  (∀ i ev, events i = Some ev → (1 ≤ After ev)%Z) →
  (∀ i, is_Some (events i)) →
  ∀ n i, (Z.of_nat n ≤ waited events i n)%Z.
Proof.
  intros Hgap Hsome n. induction n as [|n IH]; intros i; [simpl; lia|].
  cbn [waited]. destruct (Hsome i) as [ev Hev]. rewrite Hev.
  specialize (Hgap i ev Hev). specialize (IH (S i)). lia.
Qed.

(** C10: each [select] of the waiter starts a timer of its own. When every
    [select] receives, before its timer fires, an event whose run has no pod
    name, the waiter is still in its loop after any number of iterations,
    having never taken the timer case; with events at least a nanosecond
    apart it is still there after any given time, however long. *)
Theorem events_rearm_timer lr run events timeout :
  tknGet (Clients lr) (Ns lr) (Run lr) = inl run →
  PodName run = "" →
  tknWatch (Clients lr) (Ns lr) (Run lr) = inl events →
  (∀ i, ∃ ev, events i = Some ev
              ∧ (After ev < timerDuration timeout)%Z
              ∧ PodName (Object ev) = "") →
  (∀ n, waitUntilPodNameAvailable n lr timeout = Selecting (waited events 0 n))
  ∧ ((∀ i ev, events i = Some ev → (1 ≤ After ev)%Z) →
     ∀ bound : Z, ∃ n t,
       waitUntilPodNameAvailable n lr timeout = Selecting t ∧ (bound < t)%Z).
Proof.
  intros Hget Hpod Hwatch Hev.
  assert (Hsel : ∀ n, waitUntilPodNameAvailable n lr timeout
                      = Selecting (waited events 0 n)).
  { intros n. unfold waitUntilPodNameAvailable.
    rewrite Hget, Hpod, Hwatch. simpl.
    by rewrite (waitLoop_events _ _ _ _ Hev). }
  split; [exact Hsel|].
  intros Hgap bound.
  exists (Z.to_nat (Z.max 0 bound + 1)), (waited events 0 (Z.to_nat (Z.max 0 bound + 1))).
  split; [apply Hsel|].
  assert (Hlow := waited_lower_bound events Hgap
                    (fun i => match Hev i with
                              | ex_intro _ ev (conj H _) => ex_intro _ ev H
                              end)
                    (Z.to_nat (Z.max 0 bound + 1)) 0).
  lia.
Qed.

Lemma events_rearm_timer_witness :
  (∀ n, waitUntilPodNameAvailable n (readerWith (clientsWith pendingRun steadyUpdates)) 10
        = Selecting (waited steadyUpdates 0 n))
  ∧ ((∀ i ev, steadyUpdates i = Some ev → (1 ≤ After ev)%Z) →
     ∀ bound : Z, ∃ n t,
       waitUntilPodNameAvailable n (readerWith (clientsWith pendingRun steadyUpdates)) 10
       = Selecting t ∧ (bound < t)%Z).
Proof.
  apply (events_rearm_timer (readerWith (clientsWith pendingRun steadyUpdates))
           pendingRun steadyUpdates 10).
  - reflexivity.
  - reflexivity.
  - reflexivity.
  - intros i. exists {| After := 9 * Second; Object := pendingRun |}.
    split; [reflexivity|split; [reflexivity|reflexivity]].
Defined.

Example steady_updates_outlast_timer :
  timerDuration 10 = 10000000000%Z
  ∧ waitUntilPodNameAvailable 5 (readerWith (clientsWith pendingRun steadyUpdates)) 10
    = Selecting 45000000000%Z.
Proof. split; reflexivity. Qed.

(** The failure error and the timeout error are never the same message. *)
Lemma failure_is_not_timeout task msg :
  "task " +:+ task +:+ " has failed: " +:+ msg ≠ timeoutError task.
Proof.
  unfold timeoutError. intros Heq.
  apply (inj (String.app "task ")) in Heq.
  apply (inj (String.app task)) in Heq.
  discriminate Heq.
Qed.

(** When the run fetched before the watch has already failed, the timer case
    reports the failure. *)
Lemma waitLoop_failed_at_fetch task run events timeout c cs :
  Conditions run = c :: cs → Status c = "False" →
  ∀ n i first elapsed r t,
    waitLoop n task run events timeout i first elapsed = Returned r t →
    (∃ run', r = inl run' ∧ PodName run' ≠ "")
    ∨ r = inr ("task " +:+ task +:+ " has failed: " +:+ Message c).
Proof.
  intros Hc Hst n. induction n as [|n IH]; intros i first elapsed r t; simpl.
  - discriminate.
  - destruct (select (events i) (timerDuration timeout)) as [ev|].
    + destruct (String.eqb (PodName (Object ev)) "") eqn:Hpod; simpl.
      * apply IH.
      * intros [= <- _]. left. eexists. split; [done|].
        intros Hempty. rewrite Hempty in Hpod. discriminate.
    + rewrite Hc. simpl. rewrite Hst. simpl. intros [= <- _]. by right.
Qed.

Lemma waiter_failed_at_fetch lr run events timeout c cs :
  tknGet (Clients lr) (Ns lr) (Run lr) = inl run →
  PodName run = "" →
  Conditions run = c :: cs → Status c = "False" →
  tknWatch (Clients lr) (Ns lr) (Run lr) = inl events →
  ∀ n r t,
    waitUntilPodNameAvailable n lr timeout = Returned r t →
    r ≠ inr (timeoutError (Task lr))
    ∧ ((∃ run', r = inl run' ∧ PodName run' ≠ "")
       ∨ r = inr ("task " +:+ Task lr +:+ " has failed: " +:+ Message c)).
Proof.
  intros Hget Hpod Hc Hst Hwatch n r t.
  unfold waitUntilPodNameAvailable. rewrite Hget, Hpod, Hwatch. simpl.
  intros Hret.
  apply (waitLoop_failed_at_fetch _ _ _ _ _ _ Hc Hst) in Hret.
  split; [|exact Hret].
  destruct Hret as [(run' & -> & _)| ->]; [discriminate|].
  intros Heq. apply (inj inr) in Heq. by apply failure_is_not_timeout in Heq.
Qed.

(** When the run fetched first has failed and some [select] is not given an
    event in time, the waiter returns the failure error. *)
Lemma waiter_failed_at_fetch_returns lr run events timeout c cs k :
  tknGet (Clients lr) (Ns lr) (Run lr) = inl run →
  PodName run = "" →
  Conditions run = c :: cs → Status c = "False" →
  tknWatch (Clients lr) (Ns lr) (Run lr) = inl events →
  (∀ i, i < k → ∃ ev, select (events i) (timerDuration timeout) = SelEvent ev
                      ∧ PodName (Object ev) = "") →
  select (events k) (timerDuration timeout) = SelTimer →
  ∃ t, ∀ n, waitUntilPodNameAvailable (S k + n) lr timeout
            = Returned (inr ("task " +:+ Task lr +:+ " has failed: " +:+ Message c)) t.
Proof.
  intros Hget Hpod Hc Hst Hwatch Hev Hk.
  unfold waitUntilPodNameAvailable. rewrite Hget, Hpod, Hwatch. simpl negb. cbv iota.
  assert (Hloop : ∀ j i first elapsed, i + j = k →
    ∃ t, ∀ n, waitLoop (S j + n) (Task lr) run events timeout i first elapsed
              = Returned (inr ("task " +:+ Task lr +:+ " has failed: " +:+ Message c)) t).
  { induction j as [|j IH]; intros i first elapsed Hij.
    - replace i with k by lia. eexists. intros n. simpl.
      rewrite Hk, Hc. simpl. rewrite Hst. reflexivity.
    - destruct (Hev i) as (ev & Hsel & Hp); [lia|].
      destruct (IH (S i) false (elapsed + After ev)%Z) as [t Ht]; [lia|].
      exists t. intros n. change (S (S j) + n) with (S (S j + n)).
      cbn [waitLoop]. rewrite Hsel, Hp. simpl String.eqb. cbv iota.
      simpl negb. cbv iota. apply Ht. }
  apply (Hloop k 0 true 0%Z). lia.
Qed.

(** C6 on the code: the run is fetched before it has any condition, the
    watch then delivers it failed and without a pod, and no other event
    comes. The timer case checks the conditions of the run fetched first,
    not those of the run the watch delivered, and the waiter returns the
    timeout error although the run is known to have failed. *)
Theorem late_failure_reported_as_timeout :
  tknGet (clientsWith pendingRun lateFailure) "ns" "run-1" = inl pendingRun
  ∧ lateFailure 0 = Some {| After := Second; Object := failedRun |}
  ∧ (∀ i, lateFailure (S i) = None)
  ∧ PodName failedRun = ""
  ∧ hasTaskRunFailed (Conditions failedRun) "build-task"
    = Some "task build-task has failed: could not get task"
  ∧ waitUntilPodNameAvailable 1 (readerWith (clientsWith pendingRun lateFailure)) 10
    = Selecting 1000000000
  ∧ ∀ n, waitUntilPodNameAvailable (S (S n))
           (readerWith (clientsWith pendingRun lateFailure)) 10
         = Returned
             (inr "task build-task create has not started yet or pod for task not yet available")
             11000000000.
Proof. repeat split. Qed.

(** * Further properties of the multiplexing loop *)

Lemma logsOf_app t1 t2 : logsOf (t1 ++ t2) = logsOf t1 ++ logsOf t2.
Proof. apply omap_app. Qed.

Lemma errsOf_app t1 t2 : errsOf (t1 ++ t2) = errsOf t1 ++ errsOf t2.
Proof. apply omap_app. Qed.

Lemma opensOf_app t1 t2 : opensOf (t1 ++ t2) = opensOf t1 ++ opensOf t2.
Proof. apply omap_app. Qed.

(** What one iteration of the range loop sends and opens, read off the
    answers of the container: it does not depend on the order of the
    selects. *)
Lemma readStep_views task pod follow s t fl :
  readStep task pod follow s = Some (t, fl) →
  logsOf t
  = (if skipped follow s then []
     else match readErr (logRead pod (container s) follow),
                podC0 (logRead pod (container s) follow) with
          | None, Some ls => map (lineRecord task s) ls ++ [sentinel task s]
          | _, _ => []
          end)
  ∧ errsOf t
    = (if skipped follow s then []
       else match readErr (logRead pod (container s) follow) with
            | Some err => [openError s err]
            | None =>
                match perrC0 (logRead pod (container s) follow) with
                | Some es => map (streamError s) es
                | None => []
                end
                ++ match containerStatus pod (container s) with
                   | Some err => [err]
                   | None => []
                   end
            end)
  ∧ opensOf t = (if skipped follow s then [] else [container s])
  ∧ fl = (if aborts pod follow s then Return else Continue).
Proof.
  intros Hstep.
  assert (Hfl : fl = if aborts pod follow s then Return else Continue).
  { destruct (readStep_total task pod follow s) as [t' Ht']. congruence. }
  unfold skipped.
  destruct (negb follow && negb (hasStarted s)) eqn:Hs.
  - unfold readStep in Hstep. rewrite Hs in Hstep. by injection Hstep as <- _.
  - destruct (readErr (logRead pod (container s) follow)) as [err|] eqn:Hr.
    + rewrite (readStep_open_failed _ _ _ _ _ Hs Hr) in Hstep.
      by injection Hstep as <- _.
    + destruct (readStep_read task pod follow s Hs Hr) as (seg & Hseg & Hstep').
      rewrite Hstep' in Hstep. injection Hstep as <- _.
      pose proof (selectLoop_logs _ _ _ _ _ _ _ Hseg) as Hl.
      pose proof (selectLoop_errs _ _ _ _ _ _ _ Hseg) as He.
      pose proof (selectLoop_opens _ _ _ _ _ _ _ Hseg) as Ho.
      change (OpenLogReader (container s) follow :: ?l)
        with ([OpenLogReader (container s) follow] ++ l).
      rewrite !logsOf_app, !errsOf_app, !opensOf_app, Hl, He, Ho.
      repeat split; simpl;
        destruct (containerStatus pod (container s)); simpl;
        rewrite ?app_nil_r; done.
Qed.

(** X1: a step whose log reader cannot be opened costs one Error Record
    naming the step; its status is not queried and the steps after it are
    read as they would be on their own. *)
Theorem open_failure_isolated task pod follow pre s post err :
  Forall (fun p => aborts pod follow p = false) pre →
  skipped follow s = false →
  readErr (logRead pod (container s) follow) = Some err →
  ∃ tpre tpost,
    stepsLoop task pod follow pre = Some tpre
    ∧ stepsLoop task pod follow post = Some tpost
    ∧ stepsLoop task pod follow (pre ++ s :: post)
      = Some (tpre
              ++ [OpenLogReader (container s) follow;
                  SendErr ("error in getting logs for step " +:+ name s +:+ ": " +:+ err)]
              ++ tpost).
Proof.
  intros Hpre Hs Hr.
  destruct (stepsLoop_total task pod follow pre) as [tpre Htpre].
  destruct (stepsLoop_total task pod follow post) as [tpost Htpost].
  exists tpre, tpost. repeat split; [done..|].
  rewrite stepsLoop_app by done. rewrite Htpre. simpl.
  rewrite (readStep_open_failed _ _ _ _ _ Hs Hr). simpl.
  by rewrite Htpost.
Qed.

Lemma open_failure_isolated_witness :
  ∃ tpre tpost,
    stepsLoop "t" brokenHandle true [] = Some tpre
    ∧ stepsLoop "t" brokenHandle true [testStep] = Some tpost
    ∧ stepsLoop "t" brokenHandle true ([] ++ buildStep :: [testStep])
      = Some (tpre
              ++ [OpenLogReader (container buildStep) true;
                  SendErr ("error in getting logs for step " +:+ name buildStep
                           +:+ ": " +:+ "container not found")]
              ++ tpost).
Proof.
  apply (open_failure_isolated "t" brokenHandle true [] buildStep [testStep]
           "container not found").
  - constructor.
  - reflexivity.
  - reflexivity.
Defined.



(** X3: a step that is read gets its sentinel even when its log source is
    closed without a single line, and gets no Log Record at all when the
    log source is the nil channel. *)
Theorem sentinel_without_lines task pod follow s :
  skipped follow s = false →
  readErr (logRead pod (container s) follow) = None →
  ∃ t fl,
    readStep task pod follow s = Some (t, fl)
    ∧ (podC0 (logRead pod (container s) follow) = Some [] →
       logsOf t = [ {| LogTask := task; LogStep := name s; LogText := "EOFLOG" |} ])
    ∧ (podC0 (logRead pod (container s) follow) = None → logsOf t = []).
Proof.
  intros Hs Hr.
  destruct (readStep_total task pod follow s) as [t Ht].
  destruct (readStep_views _ _ _ _ _ _ Ht) as (Hlogs & _).
  rewrite Hs, Hr in Hlogs.
  exists t. eexists. split; [exact Ht|].
  split; intros Hpod; by rewrite Hpod in Hlogs.
Qed.

Lemma sentinel_without_lines_witness :
  ∃ t fl,
    readStep "t" exampleHandle true testStep = Some (t, fl)
    ∧ (podC0 (logRead exampleHandle (container testStep) true) = Some [] →
       logsOf t = [ {| LogTask := "t"; LogStep := name testStep; LogText := "EOFLOG" |} ])
    ∧ (podC0 (logRead exampleHandle (container testStep) true) = None → logsOf t = []).
Proof.
  apply (sentinel_without_lines "t" exampleHandle true testStep); reflexivity.
Defined.

(** Neither the select loop nor the body of the range loop closes a
    channel. *)
Lemma selectLoop_no_close task s fuel podC perrC order t :
  selectLoop fuel task s podC perrC order = Some t →
  Forall (fun e => isClose e = false) t.
Proof.
  revert podC perrC order t.
  induction fuel as [|fuel IH]; intros podC perrC order t Ht.
  - destruct podC, perrC; simpl in Ht; try discriminate.
    injection Ht as <-. constructor.
  - destruct podC as [[|l ls]|], perrC as [[|e es]|], order as [|[|] order];
      simpl in Ht; try discriminate Ht;
      try (injection Ht as <-; constructor);
      try (apply fmap_Some in Ht as (t' & Ht & ->); constructor; [done|]);
      by apply IH in Ht.
Qed.

Lemma readStep_no_close task pod follow s t fl :
  readStep task pod follow s = Some (t, fl) →
  Forall (fun e => isClose e = false) t.
Proof.
  intros Hstep. unfold readStep in Hstep.
  destruct (negb follow && negb (hasStarted s)).
  { injection Hstep as <- _. constructor. }
  destruct (readErr (logRead pod (container s) follow)).
  { injection Hstep as <- _. by repeat constructor. }
  destruct (selectLoop _ _ _ _ _ _) as [seg|] eqn:Hseg; simpl in Hstep; [|done].
  apply selectLoop_no_close in Hseg.
  destruct (containerStatus pod (container s)); injection Hstep as <- _;
    (constructor; [done|]); apply Forall_app; split; try done;
    by repeat constructor.
Qed.

Lemma stepsLoop_no_close task pod follow steps t :
  stepsLoop task pod follow steps = Some t →
  Forall (fun e => isClose e = false) t.
Proof.
  revert t. induction steps as [|s rest IH]; intros t Ht; simpl in Ht.
  - injection Ht as <-. constructor.
  - destruct (readStep task pod follow s) as [[ts fl]|] eqn:Hstep;
      simpl in Ht; [|done].
    apply readStep_no_close in Hstep.
    destruct fl.
    + apply fmap_Some in Ht as (tr & Htr & ->).
      apply Forall_app. split; [done|by apply IH].
    + by injection Ht as <-.
Qed.

(** X4: for every list of steps and every behaviour of the containers the
    goroutine comes to its end, and its trace is that of the loop followed
    by the close of [errC] and the close of [logC]: each channel is closed
    once, and nothing is sent after a close. *)
Theorem closes_come_last task steps pod follow :
  ∃ body,
    stepsLoop task pod follow steps = Some body
    ∧ readStepsLogs task steps pod follow = Some (body ++ [CloseErrC; CloseLogC])
    ∧ Forall (fun e => isClose e = false) body.
Proof.
  destruct (stepsLoop_total task pod follow steps) as [body Hbody].
  exists body. split; [done|split].
  - unfold readStepsLogs. by rewrite Hbody.
  - by apply stepsLoop_no_close in Hbody.
Qed.

(** X5: log readers are opened in the order of the steps and at most once
    per step; when the logs are followed and no status query fails, one is
    opened for every step, waiting or not. *)
Theorem log_readers_opened_in_order task pod follow steps :
  ∃ t,
    stepsLoop task pod follow steps = Some t
    ∧ opensOf t `sublist_of` map container steps
    ∧ (follow = true →
       Forall (fun s => aborts pod follow s = false) steps →
       opensOf t = map container steps).
Proof.
  induction steps as [|s rest (tr & Htr & Hsub & Hall)]; simpl.
  - exists []. repeat split. constructor.
  - destruct (readStep_total task pod follow s) as [ts Hts].
    destruct (readStep_views _ _ _ _ _ _ Hts) as (_ & _ & Hopens & _).
    rewrite Hts. simpl.
    destruct (aborts pod follow s) eqn:Hab.
    + exists ts. split; [done|split].
      * rewrite Hopens. destruct (skipped follow s).
        -- apply sublist_nil_l.
        -- apply sublist_skip. apply sublist_nil_l.
      * intros _ Hf. apply Forall_cons in Hf as [Hf _]. congruence.
    + rewrite Htr. simpl. exists (ts ++ tr). split; [done|].
      rewrite opensOf_app, Hopens. split.
      * destruct (skipped follow s); simpl.
        -- by apply sublist_cons.
        -- by apply sublist_skip.
      * intros -> Hf. apply Forall_cons in Hf as [_ Hf].
        rewrite (Hall eq_refl Hf). reflexivity.
Qed.

(** The Log Records of the loop carry the task name it was given and the
    name of one of its steps. *)
Lemma stepsLoop_tags task pod follow steps body :
  stepsLoop task pod follow steps = Some body →
  ∀ l, l ∈ logsOf body → LogTask l = task ∧ ∃ s, s ∈ steps ∧ LogStep l = name s.
Proof.
  revert body.
  induction steps as [|s rest IH]; intros body Hbody l Hl; simpl in Hbody.
  - injection Hbody as <-. by apply elem_of_nil in Hl.
  - destruct (readStep task pod follow s) as [[ts fl]|] eqn:Hstep;
      simpl in Hbody; [|done].
    destruct (readStep_views _ _ _ _ _ _ Hstep) as (Hlogs & _).
    assert (Hhere : l ∈ logsOf ts →
              LogTask l = task ∧ ∃ s', s' ∈ s :: rest ∧ LogStep l = name s').
    { rewrite Hlogs. intros Hin.
      destruct (skipped follow s); [by apply elem_of_nil in Hin|].
      destruct (readErr _); [by apply elem_of_nil in Hin|].
      destruct (podC0 _) as [ls|]; [|by apply elem_of_nil in Hin].
      assert (LogTask l = task ∧ LogStep l = name s) as [? ?].
      { apply elem_of_app in Hin as [Hin|Hin].
        - apply list_elem_of_fmap in Hin as (x & -> & _). done.
        - apply list_elem_of_singleton in Hin as ->. done. }
      split; [done|]. exists s. split; [apply list_elem_of_here|done]. }
    destruct fl.
    + apply fmap_Some in Hbody as (tr & Htr & ->).
      rewrite logsOf_app in Hl. apply elem_of_app in Hl as [Hl|Hl]; [by apply Hhere|].
      destruct (IH tr Htr l Hl) as (? & s' & ? & ?).
      split; [done|]. exists s'. split; [by apply list_elem_of_further|done].
    + injection Hbody as <-. by apply Hhere.
Qed.

Lemma readStepsLogs_tags task steps pod follow t :
  readStepsLogs task steps pod follow = Some t →
  ∀ l, l ∈ logsOf t → LogTask l = task ∧ ∃ s, s ∈ steps ∧ LogStep l = name s.
Proof.
  unfold readStepsLogs. intros Ht.
  apply fmap_Some in Ht as (body & Hbody & ->).
  intros l. rewrite logsOf_app. simpl. rewrite app_nil_r.
  by apply (stepsLoop_tags _ _ _ _ _ Hbody).
Qed.

(** X6: every Log Record that is sent carries the task name of the reader
    and the name of one of the steps that were given. *)
Theorem log_records_tagged task steps pod follow :
  ∃ t,
    readStepsLogs task steps pod follow = Some t
    ∧ ∀ l, l ∈ logsOf t → LogTask l = task ∧ ∃ s, s ∈ steps ∧ LogStep l = name s.
Proof.
  destruct (stepsLoop_total task pod follow steps) as [body Hbody].
  exists (body ++ [CloseErrC; CloseLogC]).
  assert (Ht : readStepsLogs task steps pod follow
               = Some (body ++ [CloseErrC; CloseLogC])).
  { unfold readStepsLogs. by rewrite Hbody. }
  split; [exact Ht|]. exact (readStepsLogs_tags _ _ _ _ _ Ht).
Qed.

(** Two handles whose containers answer alike send and open the same
    things in the loop, whatever the order of their selects. *)
Lemma stepsLoop_same_views task pod1 pod2 follow steps :
  (∀ c f, logRead pod1 c f = logRead pod2 c f) →
  (∀ c, containerStatus pod1 c = containerStatus pod2 c) →
  ∃ t1 t2,
    stepsLoop task pod1 follow steps = Some t1
    ∧ stepsLoop task pod2 follow steps = Some t2
    ∧ logsOf t1 = logsOf t2
    ∧ errsOf t1 = errsOf t2
    ∧ opensOf t1 = opensOf t2.
Proof.
  intros Hread Hstatus.
  induction steps as [|s rest (r1 & r2 & Hr1 & Hr2 & Hl & He & Ho)]; simpl.
  - by exists [], [].
  - destruct (readStep_total task pod1 follow s) as [u1 Hu1].
    destruct (readStep_total task pod2 follow s) as [u2 Hu2].
    destruct (readStep_views _ _ _ _ _ _ Hu1) as (Hl1 & He1 & Ho1 & _).
    destruct (readStep_views _ _ _ _ _ _ Hu2) as (Hl2 & He2 & Ho2 & _).
    assert (Hab : aborts pod1 follow s = aborts pod2 follow s).
    { unfold aborts. by rewrite Hread, Hstatus. }
    rewrite !Hread in Hl1. rewrite !Hread, Hstatus in He1.
    rewrite <- Hl2 in Hl1. rewrite <- He2 in He1. rewrite <- Ho2 in Ho1.
    rewrite Hu1, Hu2, <- Hab. simpl.
    destruct (aborts pod1 follow s).
    + by exists u1, u2.
    + rewrite Hr1, Hr2. simpl. exists (u1 ++ r1), (u2 ++ r2).
      rewrite !logsOf_app, !errsOf_app, !opensOf_app.
      repeat split; congruence.
Qed.

(** X7: what the consumer receives on [logC] and on [errC], and the log
    readers that are opened, do not depend on which ready case the selects
    happen to take. *)
Theorem select_order_invisible task pod1 pod2 follow steps :
  (∀ c f, logRead pod1 c f = logRead pod2 c f) →
  (∀ c, containerStatus pod1 c = containerStatus pod2 c) →
  ∃ t1 t2,
    readStepsLogs task steps pod1 follow = Some t1
    ∧ readStepsLogs task steps pod2 follow = Some t2
    ∧ logsOf t1 = logsOf t2
    ∧ errsOf t1 = errsOf t2
    ∧ opensOf t1 = opensOf t2.
Proof.
  intros Hread Hstatus.
  destruct (stepsLoop_same_views task pod1 pod2 follow steps Hread Hstatus)
    as (t1 & t2 & H1 & H2 & Hl & He & Ho).
  exists (t1 ++ [CloseErrC; CloseLogC]), (t2 ++ [CloseErrC; CloseLogC]).
  unfold readStepsLogs. rewrite H1, H2.
  rewrite !logsOf_app, !errsOf_app, !opensOf_app.
  repeat split; congruence.
Qed.

Lemma select_order_invisible_witness :
  ∃ t1 t2,
    readStepsLogs "t" [buildStep; testStep] exampleHandle true = Some t1
    ∧ readStepsLogs "t" [buildStep; testStep] reorderedHandle true = Some t2
    ∧ logsOf t1 = logsOf t2
    ∧ errsOf t1 = errsOf t2
    ∧ opensOf t1 = opensOf t2.
Proof.
  apply (select_order_invisible "t" exampleHandle reorderedHandle true
           [buildStep; testStep]).
  - intros c f. reflexivity.
  - intros c. reflexivity.
Defined.

Example select_order_changes_the_trace :
  stepsLoop "t" exampleHandle true [testStep]
  ≠ stepsLoop "t" reorderedHandle true [testStep].
Proof. vm_compute. discriminate. Qed.

(** X8: when every log reader opens, no error source delivers an error and
    every status query succeeds, nothing is ever sent on [errC]. *)
Theorem clean_run_sends_no_error task pod follow steps :
  Forall (fun s =>
            readErr (logRead pod (container s) follow) = None
            ∧ (perrC0 (logRead pod (container s) follow) = None
               ∨ perrC0 (logRead pod (container s) follow) = Some [])
            ∧ containerStatus pod (container s) = None) steps →
  ∃ t, readStepsLogs task steps pod follow = Some t ∧ errsOf t = [].
Proof.
  intros Hclean.
  assert (Hloop : ∃ t, stepsLoop task pod follow steps = Some t ∧ errsOf t = []).
  { induction Hclean as [|s rest (Hr & He & Hst) _ (tr & Htr & Hnil)]; simpl.
    - by exists [].
    - destruct (readStep_total task pod follow s) as [ts Hts].
      destruct (readStep_views _ _ _ _ _ _ Hts) as (_ & Herrs & _ & _).
      assert (Hab : aborts pod follow s = false).
      { unfold aborts. rewrite Hr, Hst. by destruct (negb follow && _). }
      assert (Hts_nil : errsOf ts = []).
      { rewrite Herrs, Hr, Hst.
        destruct (skipped follow s); [done|]. by destruct He as [-> | ->]. }
      rewrite Hts, Hab. simpl. rewrite Htr. simpl.
      exists (ts ++ tr). split; [done|]. by rewrite errsOf_app, Hts_nil, Hnil. }
  destruct Hloop as (t & Ht & Hnil).
  exists (t ++ [CloseErrC; CloseLogC]). unfold readStepsLogs. rewrite Ht.
  split; [done|]. by rewrite errsOf_app, Hnil.
Qed.

Lemma clean_run_sends_no_error_witness :
  ∃ t, readStepsLogs "t" [buildStep; buildStep] exampleHandle false = Some t
       ∧ errsOf t = [].
Proof.
  apply (clean_run_sends_no_error "t" exampleHandle false [buildStep; buildStep]).
  repeat (apply Forall_cons; split; [split; [reflexivity|split; [by right|reflexivity]]|]).
  apply Forall_nil_2.
Defined.

(** * Further properties of the step resolver *)

Lemma List_filter_sublist {A} (p : A → bool) (l : list A) :
  List.filter p l `sublist_of` l.
Proof.
  induction l as [|a l IH]; simpl; [constructor|].
  destruct (p a); [by apply sublist_skip|by apply sublist_cons].
Qed.

(** X9: whatever is asked for, [filterSteps] only returns steps of the pod,
    each at most once and in the order of the pod, init steps first; without
    [allSteps] it returns no step made from an init container. *)
Theorem filterSteps_sublist pod allSteps (wanted : list string) :
  filterSteps pod allSteps wanted
    `sublist_of` (if allSteps then getInitSteps pod else []) ++ getSteps pod.
Proof.
  rewrite filterSteps_shape. apply sublist_app; [done|].
  destruct wanted; [done|]. apply List_filter_sublist.
Qed.

(** X10: a non-empty [wanted] list none of whose names is the name of a
    step selects no step at all (the init steps alone with [allSteps]),
    where the empty list selects them all; no error is reported. *)
Theorem filterSteps_unknown_names pod allSteps (wanted : list string) :
  wanted ≠ [] →
  (∀ s, s ∈ getSteps pod → name s ∉ wanted) →
  filterSteps pod allSteps wanted = (if allSteps then getInitSteps pod else [])
  ∧ filterSteps pod allSteps []
    = (if allSteps then getInitSteps pod else []) ++ getSteps pod.
Proof.
  intros Hne Hnone. rewrite !filterSteps_shape. split; [|done].
  destruct wanted as [|w ws]; [done|].
  rewrite <- (app_nil_r (if allSteps then _ else _)) at 2. f_equal.
  induction (getSteps pod) as [|s l IH]; simpl; [done|].
  rewrite bool_decide_eq_false_2 by (apply Hnone; apply list_elem_of_here).
  apply IH. intros s' Hs'. apply Hnone. by apply list_elem_of_further.
Qed.

Lemma filterSteps_unknown_names_witness :
  filterSteps examplePod true ["deploy"] = getInitSteps examplePod
  ∧ filterSteps examplePod true [] = getInitSteps examplePod ++ getSteps examplePod.
Proof.
  apply (filterSteps_unknown_names examplePod true ["deploy"]).
  - discriminate.
  - intros s Hs Hin. apply list_elem_of_singleton in Hin.
    change (getSteps examplePod) with [buildStep; testStep] in Hs.
    apply elem_of_cons in Hs as [->|Hs]; [discriminate|].
    apply list_elem_of_singleton in Hs as ->. discriminate.
Defined.

(** X11: for non-empty lists the result of [filterSteps] depends only on
    which names occur in [wanted]: repeating a name or changing the order
    changes nothing. *)
Theorem filterSteps_wanted_as_set pod allSteps (wanted wanted' : list string) :
  wanted ≠ [] → wanted' ≠ [] →
  (∀ k, k ∈ wanted ↔ k ∈ wanted') →
  filterSteps pod allSteps wanted = filterSteps pod allSteps wanted'.
Proof.
  intros Hne Hne' Hsame. rewrite !filterSteps_shape.
  destruct wanted as [|w ws]; [done|]. destruct wanted' as [|w' ws']; [done|].
  f_equal. apply List.filter_ext. intros s. apply bool_decide_ext, Hsame.
Qed.

Lemma filterSteps_wanted_as_set_witness :
  filterSteps examplePod false ["test"; "build"; "test"]
  = filterSteps examplePod false ["build"; "test"].
Proof.
  apply (filterSteps_wanted_as_set examplePod false
           ["test"; "build"; "test"] ["build"; "test"]).
  - discriminate.
  - discriminate.
  - intros k. rewrite !elem_of_cons. rewrite !elem_of_nil. tauto.
Defined.

(** The [status] map holds, for a name, the state of the last entry of that
    name. *)
Lemma statusMap_fold_last (css : list ContainerStatus)
    (m : gmap string ContainerState) (k : string) (st : ContainerState) :
  k ∉ map StatusName css → m !! k = Some st →
  fold_left (fun m cs => <[StatusName cs := State cs]> m) css m !! k = Some st.
Proof.
  revert m; induction css as [|cs css IH]; intros m Hk Hm; simpl in *; [done|].
  apply not_elem_of_cons in Hk as [Hne Hk].
  apply IH; [done|]. by rewrite lookup_insert_ne.
Qed.

(** X12: when several status entries carry the name of a container, the
    step made from the container has the state of the last of them. *)
Theorem status_last_entry_wins pod (i : nat) (c : Container)
    (before after : list ContainerStatus) (cs : ContainerStatus) :
  Containers pod !! i = Some c →
  ContainerStatuses pod = before ++ cs :: after →
  StatusName cs = Name c →
  Name c ∉ map StatusName after →
  ∃ s, getSteps pod !! i = Some s ∧ container s = Name c ∧ state s = State cs.
Proof.
  intros Hc Hcss Hname Hafter.
  exists (mkStep (statusMap (ContainerStatuses pod)) c). split; [|split; [done|]].
  - rewrite getSteps_map. change (map ?f ?l) with (f <$> l).
    by rewrite list_lookup_fmap, Hc.
  - simpl. unfold statusOf, statusMap. rewrite Hcss, fold_left_app. simpl.
    rewrite (statusMap_fold_last after _ (Name c) (State cs)); [done|done|].
    rewrite Hname. apply lookup_insert_eq.
Qed.

Lemma status_last_entry_wins_witness :
  ∃ s,
    getSteps {| InitContainers := []; Containers := [ {| Name := "step-build" |} ];
                InitContainerStatuses := [];
                ContainerStatuses :=
                  [ {| StatusName := "step-build"; State := waitingState |};
                    {| StatusName := "step-build"; State := terminatedState |} ] |}
      !! 0 = Some s
    ∧ container s = "step-build" ∧ state s = terminatedState.
Proof.
  apply (status_last_entry_wins
           {| InitContainers := []; Containers := [ {| Name := "step-build" |} ];
              InitContainerStatuses := [];
              ContainerStatuses :=
                [ {| StatusName := "step-build"; State := waitingState |};
                  {| StatusName := "step-build"; State := terminatedState |} ] |}
           0 {| Name := "step-build" |}
           [ {| StatusName := "step-build"; State := waitingState |} ] []
           {| StatusName := "step-build"; State := terminatedState |}).
  - reflexivity.
  - reflexivity.
  - reflexivity.
  - apply not_elem_of_nil.
Defined.

(** * Further properties of the waiter *)

(** What the loop of the waiter can return: a run that has a pod name, the
    failure of the run fetched before the loop, or the timeout error. *)
Lemma waitLoop_returns task run events timeout n i first elapsed r t :
  waitLoop n task run events timeout i first elapsed = Returned r t →
  match r with
  | inl run' => PodName run' ≠ "" ∧ ∃ j ev, events j = Some ev ∧ Object ev = run'
  | inr err =>
      hasTaskRunFailed (Conditions run) task = Some err
      ∨ (hasTaskRunFailed (Conditions run) task = None ∧ err = timeoutError task)
  end.
Proof.
  revert i first elapsed.
  induction n as [|n IH]; intros i first elapsed; simpl; [discriminate|].
  unfold select. destruct (events i) as [ev|] eqn:Hev.
  - destruct (After ev <? timerDuration timeout)%Z.
    + destruct (String.eqb (PodName (Object ev)) "") eqn:Hpod; simpl.
      * apply IH.
      * intros [= <- _]. split; [|by exists i, ev].
        intros Hempty. rewrite Hempty in Hpod. discriminate.
    + destruct (hasTaskRunFailed (Conditions run) task) eqn:Hf;
        intros [= <- _]; [by left|by right].
  - destruct (hasTaskRunFailed (Conditions run) task) eqn:Hf;
      intros [= <- _]; [by left|by right].
Qed.

(** X13: whatever the waiter returns, a run it hands back has a pod name
    and was delivered by [Get] or by the watch, and an error it hands back
    is the error of [Get], the error of [Watch], the failure of the run
    that [Get] returned, or the timeout error. *)
Theorem waiter_postcondition n lr timeout r t :
  waitUntilPodNameAvailable n lr timeout = Returned r t →
  match r with
  | inl run' =>
      PodName run' ≠ ""
      ∧ (tknGet (Clients lr) (Ns lr) (Run lr) = inl run'
         ∨ ∃ events j ev,
             tknWatch (Clients lr) (Ns lr) (Run lr) = inl events
             ∧ events j = Some ev ∧ Object ev = run')
  | inr err =>
      tknGet (Clients lr) (Ns lr) (Run lr) = inr err
      ∨ tknWatch (Clients lr) (Ns lr) (Run lr) = inr err
      ∨ (∃ run, tknGet (Clients lr) (Ns lr) (Run lr) = inl run
                ∧ hasTaskRunFailed (Conditions run) (Task lr) = Some err)
      ∨ err = timeoutError (Task lr)
  end.
Proof.
  unfold waitUntilPodNameAvailable.
  destruct (tknGet (Clients lr) (Ns lr) (Run lr)) as [run|err] eqn:Hget.
  - destruct (String.eqb (PodName run) "") eqn:Hpod; simpl.
    + destruct (tknWatch (Clients lr) (Ns lr) (Run lr)) as [events|err] eqn:Hw.
      * intros Hloop. apply waitLoop_returns in Hloop.
        destruct r as [run'|err].
        -- destruct Hloop as (Hp & j & ev & Hev & Hobj).
           split; [done|]. right. by exists events, j, ev.
        -- destruct Hloop as [Hf|[_ ->]].
           ++ right. right. left. by exists run.
           ++ by repeat right.
      * intros [= <- _]. right. by left.
    + intros [= <- _]. split; [|by left].
      intros Hempty. rewrite Hempty in Hpod. discriminate.
  - intros [= <- _]. by left.
Qed.

Lemma waiter_postcondition_witness :
  PodName scheduledRun ≠ ""
  ∧ (tknGet (Clients (readerWith (clientsWith pendingRun lateSchedule)))
       (Ns (readerWith (clientsWith pendingRun lateSchedule)))
       (Run (readerWith (clientsWith pendingRun lateSchedule))) = inl scheduledRun
     ∨ ∃ events j ev,
         tknWatch (Clients (readerWith (clientsWith pendingRun lateSchedule)))
           (Ns (readerWith (clientsWith pendingRun lateSchedule)))
           (Run (readerWith (clientsWith pendingRun lateSchedule))) = inl events
         ∧ events j = Some ev ∧ Object ev = scheduledRun).
Proof.
  apply (waiter_postcondition 2 (readerWith (clientsWith pendingRun lateSchedule)) 10
           (inl scheduledRun) 3000000000).
  reflexivity.
Defined.

(** The selects that receive, in time, an event whose run has no pod name
    only add their waiting times. *)
Lemma waitLoop_skip_events task run events timeout k :
  (∀ i, i < k → ∃ ev, events i = Some ev
                      ∧ (After ev < timerDuration timeout)%Z
                      ∧ PodName (Object ev) = "") →
  ∀ n first elapsed,
    waitLoop (k + n) task run events timeout 0 first elapsed
    = waitLoop n task run events timeout k (match k with 0 => first | _ => false end)
        (elapsed + waited events 0 k)%Z.
Proof.
  intros Hev n.
  assert (Hgen : ∀ j i first elapsed, i + j = k →
    waitLoop (j + n) task run events timeout i first elapsed
    = waitLoop n task run events timeout k (match j with 0 => first | _ => false end)
        (elapsed + waited events i j)%Z).
  { induction j as [|j IH]; intros i first elapsed Hij.
    - simpl. rewrite Z.add_0_r. by replace i with k by lia.
    - destruct (Hev i) as (ev & Hi & Hlt & Hpod); [lia|].
      change (S j + n) with (S (j + n)). cbn [waitLoop waited].
      unfold select. rewrite Hi. apply Z.ltb_lt in Hlt. rewrite Hlt, Hpod. simpl.
      rewrite IH by lia. rewrite Z.add_assoc. by destruct j. }
  intros first elapsed. by apply Hgen.
Qed.

Lemma waited_snoc events j i :
  waited events i (S j)
  = (waited events i j
     + match events (i + j)%nat with Some ev => After ev | None => 0 end)%Z.
Proof.
  revert i. induction j as [|j IH]; intros i.
  - simpl. rewrite Nat.add_0_r. lia.
  - change (waited events i (S (S j)))
      with ((match events i with Some e => After e | None => 0 end
             + waited events (S i) (S j))%Z).
    rewrite IH. cbn [waited]. replace (S i + j) with (i + S j) by lia. lia.
Qed.

(** X14: when the run has no pod name at first and the watch delivers, each
    before the timer of its select, [k] events without a pod name and then
    an event whose run has one, the waiter returns that run, after the sum
    of the waiting times. *)
Theorem waiter_returns_first_scheduled lr run events timeout k ev :
  tknGet (Clients lr) (Ns lr) (Run lr) = inl run →
  PodName run = "" →
  tknWatch (Clients lr) (Ns lr) (Run lr) = inl events →
  (∀ i, i < k → ∃ e, events i = Some e
                     ∧ (After e < timerDuration timeout)%Z
                     ∧ PodName (Object e) = "") →
  events k = Some ev →
  (After ev < timerDuration timeout)%Z →
  PodName (Object ev) ≠ "" →
  ∀ n, waitUntilPodNameAvailable (k + S n) lr timeout
       = Returned (inl (Object ev)) (waited events 0 (S k)).
Proof.
  intros Hget Hpod Hwatch Hbefore Hk Hlt Hsched n.
  unfold waitUntilPodNameAvailable. rewrite Hget, Hpod, Hwatch. simpl.
  rewrite (waitLoop_skip_events _ _ _ _ k Hbefore). cbn [waitLoop].
  unfold select. rewrite Hk. apply Z.ltb_lt in Hlt. rewrite Hlt.
  apply String.eqb_neq in Hsched. rewrite Hsched. simpl. f_equal.
  pose proof (waited_snoc events k 0) as Hsum.
  simpl in Hsum. rewrite Hk in Hsum. lia.
Qed.

Lemma waiter_returns_first_scheduled_witness :
  waitUntilPodNameAvailable (1 + S 0)
    (readerWith (clientsWith pendingRun lateSchedule)) 10
  = Returned (inl (Object {| After := 2 * Second; Object := scheduledRun |}))
      (waited lateSchedule 0 2).
Proof.
  apply (waiter_returns_first_scheduled
           (readerWith (clientsWith pendingRun lateSchedule)) pendingRun
           lateSchedule 10 1 {| After := 2 * Second; Object := scheduledRun |}).
  - reflexivity.
  - reflexivity.
  - reflexivity.
  - intros i Hi. exists {| After := Second; Object := pendingRun |}.
    destruct i as [|i]; [|lia]. split; [reflexivity|split; reflexivity].
  - reflexivity.
  - reflexivity.
  - discriminate.
Defined.



(** * Properties of the entry points *)

(** X16: resolving the task name a second time changes nothing, a name
    that is already set is kept, and no field of the reader other than
    [Task] is ever changed. *)
Theorem formTaskName_idempotent lr tr :
  formTaskName (formTaskName lr tr) tr = formTaskName lr tr
  ∧ (Task lr ≠ "" → formTaskName lr tr = lr)
  ∧ formTaskName lr tr = withTask lr (Task (formTaskName lr tr)).
Proof.
  assert (Hkeep : ∀ r : LogReader, Task r ≠ "" → formTaskName r tr = r).
  { intros r Hr. unfold formTaskName. apply String.eqb_neq in Hr. by rewrite Hr. }
  split; [|split; [apply Hkeep|]].
  - destruct (String.eqb (Task lr) "") eqn:Hempty.
    + assert (Hagain : ∀ v, formTaskName (withTask lr v) tr = withTask lr v
                            ∨ formTaskName (withTask lr v) tr
                              = formTaskName lr tr).
      { intros v. unfold formTaskName. simpl. rewrite Hempty. simpl.
        destruct (String.eqb v ""); simpl; [right|by left].
        destruct (Labels tr !! "tekton.dev/pipelineTask"); [done|].
        by destruct (SpecTaskRef tr). }
      assert (Hform : ∃ v, formTaskName lr tr = withTask lr v).
      { unfold formTaskName. rewrite Hempty. simpl.
        destruct (Labels tr !! "tekton.dev/pipelineTask"); [by eexists|].
        destruct (SpecTaskRef tr); by eexists. }
      destruct Hform as [v Hform]. rewrite Hform.
      destruct (Hagain v) as [Hv|Hv]; [done|by rewrite Hv].
    + apply String.eqb_neq in Hempty. by rewrite !(Hkeep lr Hempty).
  - unfold formTaskName.
    destruct (String.eqb (Task lr) ""); simpl; [|by destruct lr].
    destruct (Labels tr !! "tekton.dev/pipelineTask"); [done|].
    by destruct (SpecTaskRef tr).
Qed.

(** X17: the names made up for runs that have neither a pipeline-task
    label nor a task reference tell the readers apart: two readers get the
    same name only when they have the same number. *)
Theorem fallback_names_distinct lr1 lr2 tr :
  Task lr1 = "" → Task lr2 = "" →
  Labels tr !! "tekton.dev/pipelineTask" = None →
  SpecTaskRef tr = None →
  Task (formTaskName lr1 tr) = Task (formTaskName lr2 tr) →
  Number lr1 = Number lr2.
Proof.
  intros H1 H2 Hlabel Href. unfold formTaskName.
  rewrite H1, H2, Hlabel, Href. simpl. intros Heq.
  apply (inj (String.app "Task ")) in Heq.
  by apply (inj pretty) in Heq.
Qed.

Lemma fallback_names_distinct_witness : Number (plainReader 7) = Number (plainReader 7).
Proof.
  apply (fallback_names_distinct (plainReader 7) (plainReader 7) bareObject);
    reflexivity.
Defined.

Example formTaskName_examples :
  Task (formTaskName (plainReader 3) labelledObject) = "compile"
  ∧ Task (formTaskName (plainReader 3)
            {| Labels := ∅; SpecTaskRef := Some {| RefName := "golang-build" |};
               Observed := pendingRun |}) = "golang-build"
  ∧ Task (formTaskName (plainReader 3) bareObject) = "Task 3"
  ∧ Task (formTaskName (plainReader (-12)) bareObject) = "Task -12"
  ∧ Task (formTaskName (readerWith (clientsWith pendingRun lateFailure)) labelledObject)
    = "build-task".
Proof. repeat split; vm_compute; reflexivity. Qed.

(** X18: [readAvailableLogs] starts the goroutine only for a run that has
    started, whose first condition is not False, that has a pod name and
    whose pod could be fetched; it then leaves the stream of the reader
    untouched, and the goroutine, which reads the steps resolved from that
    pod, comes to its end. *)
Theorem readAvailableLogs_started (TrimSpace : string → string) lr tr g st :
  readAvailableLogs TrimSpace lr tr = (Started g, st) →
  HasStarted tr = true
  ∧ hasTaskRunFailed (Conditions tr) (Task lr) = None
  ∧ PodName tr ≠ ""
  ∧ st = Stream lr
  ∧ ∃ pod,
      podGet (podsNew (Clients lr) (PodName tr) (Ns lr)) = inl pod
      ∧ g = readStepsLogs (Task lr) (filterSteps pod (AllSteps lr) (Steps lr))
              (podsNew (Clients lr) (PodName tr) (Ns lr)) (Follow lr)
      ∧ is_Some g.
Proof.
  unfold readAvailableLogs.
  destruct (HasStarted tr); simpl; [|discriminate].
  destruct (hasTaskRunFailed (Conditions tr) (Task lr)); [discriminate|].
  destruct (String.eqb (PodName tr) "") eqn:Hpod; [discriminate|].
  destruct (podGet (podsNew (Clients lr) (PodName tr) (Ns lr))) as [pod|err];
    [|discriminate].
  intros [= <- <-]. repeat split.
  - intros Hempty. rewrite Hempty in Hpod. discriminate.
  - exists pod. repeat split. unfold readStepsLogs.
    apply fmap_is_Some, stepsLoop_total.
Qed.

Lemma readAvailableLogs_started_witness :
  HasStarted scheduledRun = true
  ∧ hasTaskRunFailed (Conditions scheduledRun) (Task (plainReader 1)) = None
  ∧ PodName scheduledRun ≠ ""
  ∧ None = Stream (plainReader 1)
  ∧ ∃ pod,
      podGet (podsNew (Clients (plainReader 1)) (PodName scheduledRun)
                (Ns (plainReader 1))) = inl pod
      ∧ readStepsLogs "" [buildStep; testStep] exampleHandle false
        = readStepsLogs (Task (plainReader 1))
            (filterSteps pod (AllSteps (plainReader 1)) (Steps (plainReader 1)))
            (podsNew (Clients (plainReader 1)) (PodName scheduledRun)
               (Ns (plainReader 1)))
            (Follow (plainReader 1))
      ∧ is_Some (readStepsLogs "" [buildStep; testStep] exampleHandle false).
Proof.
  apply (readAvailableLogs_started id (plainReader 1) scheduledRun
           (readStepsLogs "" [buildStep; testStep] exampleHandle false) None).
  vm_compute. reflexivity.
Defined.

(** X19: [readLiveLogs] creates a pod handle, and starts the goroutine,
    only with the pod name of a run that has one; the goroutine reads the
    steps resolved from the pod that [Wait] returned and comes to its
    end. *)
Theorem readLiveLogs_started (TrimSpace : string → string) n lr g :
  readLiveLogs TrimSpace n lr = Some (Started g) →
  ∃ tr pod,
    PodName tr ≠ ""
    ∧ podWait (podsNew (Clients lr) (PodName tr) (Ns lr)) = inl pod
    ∧ g = readStepsLogs (Task lr) (filterSteps pod (AllSteps lr) (Steps lr))
            (podsNew (Clients lr) (PodName tr) (Ns lr)) (Follow lr)
    ∧ is_Some g.
Proof.
  unfold readLiveLogs.
  destruct (waitUntilPodNameAvailable n lr 10) as [[tr|err] t|t] eqn:Hwait;
    [|discriminate..].
  assert (Hpod : PodName tr ≠ "").
  { unfold waitUntilPodNameAvailable in Hwait.
    destruct (tknGet (Clients lr) (Ns lr) (Run lr)) as [run|e]; [|discriminate].
    destruct (String.eqb (PodName run) "") eqn:Hrun; simpl in Hwait.
    - destruct (tknWatch (Clients lr) (Ns lr) (Run lr)); [|discriminate].
      by apply waitLoop_returns in Hwait as [? _].
    - injection Hwait as <- _. intros Hempty. rewrite Hempty in Hrun. discriminate. }
  destruct (podWait (podsNew (Clients lr) (PodName tr) (Ns lr))) as [pod|err] eqn:Hw;
    [|discriminate].
  intros [= <-]. exists tr, pod. repeat split; [done..|].
  unfold readStepsLogs. apply fmap_is_Some, stepsLoop_total.
Qed.

Lemma readLiveLogs_started_witness :
  ∃ tr pod,
    PodName tr ≠ ""
    ∧ podWait (podsNew (Clients (readerWith (clientsWith pendingRun lateSchedule)))
                 (PodName tr) (Ns (readerWith (clientsWith pendingRun lateSchedule))))
      = inl pod
    ∧ readStepsLogs "build-task" [buildStep; testStep] exampleHandle true
      = readStepsLogs (Task (readerWith (clientsWith pendingRun lateSchedule)))
          (filterSteps pod
             (AllSteps (readerWith (clientsWith pendingRun lateSchedule)))
             (Steps (readerWith (clientsWith pendingRun lateSchedule))))
          (podsNew (Clients (readerWith (clientsWith pendingRun lateSchedule)))
             (PodName tr) (Ns (readerWith (clientsWith pendingRun lateSchedule))))
          (Follow (readerWith (clientsWith pendingRun lateSchedule)))
    ∧ is_Some (readStepsLogs "build-task" [buildStep; testStep] exampleHandle true).
Proof.
  apply (readLiveLogs_started id 2 (readerWith (clientsWith pendingRun lateSchedule))
           (readStepsLogs "build-task" [buildStep; testStep] exampleHandle true)).
  vm_compute. reflexivity.
Defined.

(** X20: [readAvailableLogs] never writes to [Out]; it writes to [Err] in
    one case only, the run whose first condition is False, and then exactly
    the failure message it returns followed by a newline. *)
Theorem stream_written_only_on_failure (TrimSpace : string → string) lr tr :
  Out <$> (readAvailableLogs TrimSpace lr tr).2 = Out <$> Stream lr
  ∧ ((readAvailableLogs TrimSpace lr tr).2 = Stream lr
     ∨ ∃ st err,
         Stream lr = Some st
         ∧ HasStarted tr = true
         ∧ hasTaskRunFailed (Conditions tr) (Task lr) = Some err
         ∧ readAvailableLogs TrimSpace lr tr
           = (Failed err,
              Some {| Out := Out st; Err := Err st +:+ err +:+ newline |})).
Proof.
  unfold readAvailableLogs.
  destruct (HasStarted tr); simpl; [|by split; [|left]].
  destruct (hasTaskRunFailed (Conditions tr) (Task lr)) as [err|].
  - destruct (Stream lr) as [st|]; simpl.
    + split; [done|]. right. by exists st, err.
    + split; [done|by left].
  - destruct (String.eqb (PodName tr) ""); [by split; [|left]|].
    destruct (podGet _); by split; [|left].
Qed.

(** The goroutine that an entry point starts runs [readStepsLogs] with
    the task name of the reader. *)
Lemma readAvailableLogs_goroutine (TrimSpace : string → string) lr tr g st :
  readAvailableLogs TrimSpace lr tr = (Started g, st) →
  ∃ steps pod, g = readStepsLogs (Task lr) steps pod (Follow lr).
Proof.
  unfold readAvailableLogs.
  destruct (HasStarted tr); simpl; [|discriminate].
  destruct (hasTaskRunFailed (Conditions tr) (Task lr)); [discriminate|].
  destruct (String.eqb (PodName tr) ""); [discriminate|].
  destruct (podGet _); [|discriminate].
  intros [= <- _]. by do 2 eexists.
Qed.

Lemma readLiveLogs_goroutine (TrimSpace : string → string) n lr g :
  readLiveLogs TrimSpace n lr = Some (Started g) →
  ∃ steps pod, g = readStepsLogs (Task lr) steps pod (Follow lr).
Proof.
  unfold readLiveLogs.
  destruct (waitUntilPodNameAvailable n lr 10) as [[tr|err] t|t]; [|discriminate..].
  destruct (podWait _); [|discriminate].
  intros [= <-]. by do 2 eexists.
Qed.

(** X21: when [Read] finds the run and starts the goroutine, the reader
    keeps the task name that [formTaskName] resolved, and every Log Record
    carries that name. *)
Theorem Read_uses_resolved_task (TrimSpace : string → string) (msg : string)
    (get : string → string → TaskRunObject + error) n lr tr lr' t st :
  get (Ns lr) (Run lr) = inl tr →
  Read TrimSpace msg get n lr = (lr', Some (Started (Some t), st)) →
  lr' = formTaskName lr tr
  ∧ ∀ l, l ∈ logsOf t → LogTask l = Task (formTaskName lr tr).
Proof.
  intros Hget. unfold Read. rewrite Hget. intros [= <- Hlogs].
  split; [done|]. intros l Hl.
  assert (Hg : ∃ steps pod,
            Some t = readStepsLogs (Task (formTaskName lr tr)) steps pod
                       (Follow (formTaskName lr tr))).
  { unfold readLogs in Hlogs.
    destruct (Follow (formTaskName lr tr)) eqn:Hfollow.
    - apply fmap_Some in Hlogs as (o & Hlive & Ho).
      injection Ho as <- _.
      apply readLiveLogs_goroutine in Hlive. by rewrite Hfollow in Hlive.
    - injection Hlogs as Hlogs.
      apply readAvailableLogs_goroutine in Hlogs. by rewrite Hfollow in Hlogs. }
  destruct Hg as (steps & pod & Hg). symmetry in Hg.
  by destruct (readStepsLogs_tags _ _ _ _ _ Hg l Hl).
Qed.

Lemma Read_uses_resolved_task_witness :
  formTaskName (plainReader 1) scheduledObject
  = formTaskName (plainReader 1) scheduledObject
  ∧ ∀ l, l ∈ logsOf
             [ OpenLogReader "step-build" false;
               SendLog {| LogTask := "compile"; LogStep := "build"; LogText := "ok" |};
               SendLog {| LogTask := "compile"; LogStep := "build";
                          LogText := "EOFLOG" |};
               QueryStatus "step-build"; CloseErrC; CloseLogC ] →
         LogTask l = Task (formTaskName (plainReader 1) scheduledObject).
Proof.
  apply (Read_uses_resolved_task id "taskrun not found"
           (fun _ _ => inl scheduledObject) 0 (plainReader 1) scheduledObject
           (formTaskName (plainReader 1) scheduledObject)
           [ OpenLogReader "step-build" false;
             SendLog {| LogTask := "compile"; LogStep := "build"; LogText := "ok" |};
             SendLog {| LogTask := "compile"; LogStep := "build"; LogText := "EOFLOG" |};
             QueryStatus "step-build"; CloseErrC; CloseLogC ]
           None).
  - reflexivity.
  - vm_compute. reflexivity.
Defined.

(** * The order of the resources of a pipeline *)

Lemma ltb_lt (s1 s2 : string) :
  String.ltb s1 s2 = true ↔ OrderedTypeEx.String_as_OT.lt s1 s2.
Proof.
  unfold String.ltb. rewrite <- OrderedTypeEx.String_as_OT.cmp_lt.
  unfold OrderedTypeEx.String_as_OT.cmp.
  destruct (String.compare s1 s2); split; congruence.
Qed.

Lemma lt_irrefl_string (s : string) : ¬ OrderedTypeEx.String_as_OT.lt s s.
Proof. intros H. by apply OrderedTypeEx.String_as_OT.lt_not_eq in H. Qed.

Lemma lt_total_string (s1 s2 : string) :
  OrderedTypeEx.String_as_OT.lt s1 s2 ∨ s1 = s2 ∨ OrderedTypeEx.String_as_OT.lt s2 s1.
Proof.
  destruct (String.compare s1 s2) eqn:Hc.
  - right. left. by apply String.compare_eq_iff.
  - left. apply ltb_lt. unfold String.ltb. by rewrite Hc.
  - right. right. apply ltb_lt. unfold String.ltb.
    rewrite String.compare_antisym, Hc. done.
Qed.

(** The comparison is the lexicographic order on the type, then the name. *)
Lemma lessByTypeAndName_spec a b :
  lessByTypeAndName a b = true
  ↔ OrderedTypeEx.String_as_OT.lt (ResourceType a) (ResourceType b)
    ∨ (ResourceType a = ResourceType b
       ∧ OrderedTypeEx.String_as_OT.lt (ResourceName a) (ResourceName b)).
Proof.
  unfold lessByTypeAndName.
  destruct (String.ltb (ResourceType b) (ResourceType a)) eqn:Hba.
  - apply ltb_lt in Hba. split; [done|].
    intros [Hab|[Heq _]].
    + exfalso. apply (lt_irrefl_string (ResourceType a)).
      by apply (OrderedTypeEx.String_as_OT.lt_trans _ (ResourceType b)).
    + rewrite Heq in Hba. by apply lt_irrefl_string in Hba.
  - destruct (String.ltb (ResourceType a) (ResourceType b)) eqn:Hab.
    + apply ltb_lt in Hab. split; [by left|done].
    + assert (Heq : ResourceType a = ResourceType b).
      { destruct (lt_total_string (ResourceType a) (ResourceType b))
          as [H|[H|H]]; [|done|]; apply ltb_lt in H; congruence. }
      rewrite ltb_lt. split; [by right|].
      intros [H|[_ H]]; [|done]. apply ltb_lt in H. congruence.
Qed.

Lemma lessByTypeAndName_irrefl a : lessByTypeAndName a a = false.
Proof.
  apply not_true_is_false. rewrite lessByTypeAndName_spec.
  intros [H|[_ H]]; by apply lt_irrefl_string in H.
Qed.

Lemma lessByTypeAndName_trans a b c :
  lessByTypeAndName a b = true → lessByTypeAndName b c = true →
  lessByTypeAndName a c = true.
Proof.
  rewrite !lessByTypeAndName_spec.
  intros [Hab|[Eab Hab]] [Hbc|[Ebc Hbc]].
  - left. by apply (OrderedTypeEx.String_as_OT.lt_trans _ (ResourceType b)).
  - left. by rewrite <- Ebc.
  - left. by rewrite Eab.
  - right. split; [congruence|].
    by apply (OrderedTypeEx.String_as_OT.lt_trans _ (ResourceName b)).
Qed.

Lemma lessByTypeAndName_total a b :
  a = b ∨ lessByTypeAndName a b = true ∨ lessByTypeAndName b a = true.
Proof.
  rewrite !lessByTypeAndName_spec.
  destruct (lt_total_string (ResourceType a) (ResourceType b)) as [H|[Ht|H]];
    [by right; left; left| |by right; right; left].
  destruct (lt_total_string (ResourceName a) (ResourceName b)) as [H|[Hn|H]].
  - right. left. by right.
  - left. destruct a, b. simpl in *. congruence.
  - right. right. by right.
Qed.

(** X22: the comparison handed to [sort.Slice] is a strict total order on
    the type and name of the resources: nothing is less than itself, it is
    transitive, never holds both ways, and of two resources that differ in
    type or in name one is less than the other. *)
Theorem lessByTypeAndName_strict_total_order :
  (∀ a, lessByTypeAndName a a = false)
  ∧ (∀ a b c, lessByTypeAndName a b = true → lessByTypeAndName b c = true →
              lessByTypeAndName a c = true)
  ∧ (∀ a b, lessByTypeAndName a b = true → lessByTypeAndName b a = false)
  ∧ (∀ a b, a = b ∨ lessByTypeAndName a b = true ∨ lessByTypeAndName b a = true).
Proof.
  split; [apply lessByTypeAndName_irrefl|].
  split; [apply lessByTypeAndName_trans|].
  split; [|apply lessByTypeAndName_total].
  intros a b Hab. apply not_true_is_false. intros Hba.
  pose proof (lessByTypeAndName_trans _ _ _ Hab Hba) as Haa.
  by rewrite lessByTypeAndName_irrefl in Haa.
Qed.

(** X23: the order of the types and names in the slice that
    [sortResourcesByTypeAndName] returns is determined by the resources
    alone: any two arrangements of them that [sort.Slice] may leave list
    the same types and names in the same order, although [sort.Slice] is
    not stable. *)
Theorem sorted_resources_unique pres sorted1 sorted2 :
  sortedBy pres sorted1 → sortedBy pres sorted2 → sorted1 = sorted2.
Proof.
  intros [Hp1 Hs1] [Hp2 Hs2].
  apply (StronglySorted_unique_strong
           (fun a b => lessByTypeAndName b a = false)); [|done|done|].
  - intros x1 x2 _ _ H21 H12.
    destruct (lessByTypeAndName_total x1 x2) as [?|[?|?]]; [done|congruence..].
  - by rewrite <- Hp1.
Qed.

Lemma sorted_resources_unique_witness :
  [ {| ResourceName := "app"; ResourceType := "git" |};
    {| ResourceName := "src"; ResourceType := "git" |};
    {| ResourceName := "img"; ResourceType := "image" |} ]
  = [ {| ResourceName := "app"; ResourceType := "git" |};
      {| ResourceName := "src"; ResourceType := "git" |};
      {| ResourceName := "img"; ResourceType := "image" |} ].
Proof.
  apply (sorted_resources_unique
           [ {| ResourceName := "img"; ResourceType := "image" |};
             {| ResourceName := "src"; ResourceType := "git" |};
             {| ResourceName := "app"; ResourceType := "git" |} ]).
  - split.
    + etrans; [apply Permutation_rev|]. reflexivity.
    + repeat constructor.
  - split.
    + etrans; [apply Permutation_rev|]. reflexivity.
    + repeat constructor.
Defined.

(** * The waiter and a run that has failed when it is fetched *)


